(** * pokecache: the expiring cache of pokedexcli

    A shallow embedding of [internal/pokecache/cache.go] and the properties
    of its three methods [Add], [Get] and [reap].

    The model has two layers.
    - The methods as functions in a small state and panic monad over the
      [Cache] struct, one definition per Go function; what a call computes
      is proved on these.
    - The same method bodies, one statement at a time, as a step relation
      over a pool of goroutines sharing one [Cache]; the locking discipline
      is proved on this one, and tied to the first by an invariant.

    Around them: [reapLoop], the sweeper that calls [reap], and in
    [Module Main] the commands of package main that look pages up in the
    cache before they go to the network. *)

From Stdlib Require Import ZArith Lia.
From Stdlib.Strings Require Import Byte.
From stdpp Require Import base option list strings gmap fin_maps.

Local Open Scope Z_scope.

(** ** Go values used by the package *)

(** A [[]byte] slice value: [None] is the nil slice, [Some l] a slice whose
    elements are [l].  The cache stores and returns the slice value and never
    looks inside it. *)
Definition bytes : Type := option (list byte).

(** Go's untyped [nil] at type [[]byte]. *)
Definition nil_bytes : bytes := None.

(** [time.Duration] is an [int64] count of nanoseconds. *)
Definition Duration : Type := Z.

Definition minDuration : Duration := - 2 ^ 63.
Definition maxDuration : Duration := 2 ^ 63 - 1.

(** Wrap-around of [int64] arithmetic. *)
Definition wrap64 (z : Z) : Z := (z + 2 ^ 63) mod 2 ^ 64 - 2 ^ 63.

Definition int64_range (z : Z) : Prop := minDuration <= z <= maxDuration.

(** [time.Time] values produced by [time.Now()] carry a monotonic clock
    reading, an [int64] number of nanoseconds since process start; the cache
    only ever subtracts two such values, which uses the monotonic readings
    alone.  A [Time] is that reading. *)
Definition Time : Type := Z.

(** [Time.Sub] on two monotonic readings ([subMono] in package [time]):
    the [int64] difference, saturated at the ends of the [Duration] range. *)
Definition Sub (t u : Time) : Duration :=
  let d := wrap64 (t - u) in
  if (d <? 0) && (u <? t) then maxDuration
  else if (0 <? d) && (t <? u) then minDuration
  else d.

(** ** The structs *)

Record cacheEntry : Type := mkEntry {
  createdAt : Time;
  val : bytes
}.

(** The zero value of [cacheEntry], what a failed map index yields. *)
Definition zeroEntry : cacheEntry := {| createdAt := 0; val := nil_bytes |}.

(** [sync.Mutex]; its zero value is unlocked. *)
Inductive Mutex : Type := Unlocked | Locked.

(** A Go map value is a reference: [None] is the nil map (the zero value of
    the field), [Some m] an allocated map with contents [m]. *)
Definition gomap : Type := option (gmap string cacheEntry).

Record Cache : Type := mkCache {
  mu : Mutex;
  entries : gomap;
  interval : Duration
}.

Definition set_mu (x : Mutex) (c : Cache) : Cache :=
  {| mu := x; entries := entries c; interval := interval c |}.

Definition set_entries (m : gomap) (c : Cache) : Cache :=
  {| mu := mu c; entries := m; interval := interval c |}.

(** ** Go map primitives *)

(** [make(map[string]cacheEntry)]. *)
Definition make_map : gomap := Some ∅.

(** [entry, ok := m[key]]: indexing a nil map is allowed and misses. *)
Definition map_index (m : gomap) (key : string) : cacheEntry * bool :=
  match m with
  | Some g => match g !! key with
              | Some e => (e, true)
              | None => (zeroEntry, false)
              end
  | None => (zeroEntry, false)
  end.

(** [m[key] = e]: assignment to an entry of a nil map panics. *)
Definition map_assign (m : gomap) (key : string) (e : cacheEntry) : option gomap :=
  match m with
  | Some g => Some (Some (<[key := e]> g))
  | None => None
  end.

(** [delete(m, key)]: a no-op on a nil map and on an absent key. *)
Definition map_delete (m : gomap) (key : string) : gomap :=
  match m with
  | Some g => Some (delete key g)
  | None => None
  end.

(** The keys a [range] over the map starts from.  Go leaves the visiting
    order unspecified; [map_keys] is one order, and [reap_range] below is
    shown not to depend on which one is taken. *)
Definition map_keys (m : gomap) : list string :=
  match m with
  | Some g => (map_to_list g).*1
  | None => []
  end.

(** What a caller can observe of the mapping: the entry stored under a key,
    if any. *)
Definition lookup_entry (key : string) (c : Cache) : option cacheEntry :=
  match entries c with
  | Some g => g !! key
  | None => None
  end.

(** ** The monad of method bodies

    A method runs on the [Cache] it is called on and either returns, panics,
    or blocks forever (a [Lock] on a mutex that nobody will release).  The
    state is kept in all three cases so that deferred calls can run after a
    panic. *)

Inductive outcome (A : Type) : Type :=
  | Returns (a : A)
  | Panics (msg : string)
  | Blocks.
Arguments Returns {A} a.
Arguments Panics {A} msg.
Arguments Blocks {A}.

Definition M (A : Type) : Type := Cache -> outcome A * Cache.

Definition ret {A} (a : A) : M A := fun c => (Returns a, c).

Definition bind {A B} (m : M A) (f : A -> M B) : M B :=
  fun c =>
    match m c with
    | (Returns a, c') => f a c'
    | (Panics msg, c') => (Panics msg, c')
    | (Blocks, c') => (Blocks, c')
    end.

Declare Scope go_scope.
Delimit Scope go_scope with go.
Notation "'let*' x ':=' m 'in' k" := (bind m (fun x => k))
  (at level 10, x name, m at level 100, k at level 200) : go_scope.
Notation "m ';;' k" := (bind m (fun _ => k))
  (at level 100, k at level 200, right associativity) : go_scope.

(** [defer d] followed by [body]: [d] runs when [body] returns and also when
    it panics; a goroutine that is blocked never reaches it. *)
Definition defer {A} (d : M unit) (body : M A) : M A :=
  fun c =>
    match body c with
    | (Blocks, c') => (Blocks, c')
    | (r, c') =>
        match d c' with
        | (Returns _, c'') => (r, c'')
        | (Panics msg, c'') => (Panics msg, c'')
        | (Blocks, c'') => (Blocks, c'')
        end
    end.

(** [c.mu.Lock()]. *)
Definition Lock : M unit :=
  fun c =>
    match mu c with
    | Unlocked => (Returns tt, set_mu Locked c)
    | Locked => (Blocks, c)
    end.

(** [c.mu.Unlock()]; unlocking an unlocked mutex is a fatal error. *)
Definition Unlock : M unit :=
  fun c =>
    match mu c with
    | Locked => (Returns tt, set_mu Unlocked c)
    | Unlocked => (Panics "sync: unlock of unlocked mutex", c)
    end.

(** [c.entries[key] = e]. *)
Definition assign_entry (key : string) (e : cacheEntry) : M unit :=
  fun c =>
    match map_assign (entries c) key e with
    | Some m => (Returns tt, set_entries m c)
    | None => (Panics "assignment to entry in nil map", c)
    end.

(** [entry, ok := c.entries[key]]. *)
Definition index_entry (key : string) : M (cacheEntry * bool) :=
  fun c => (Returns (map_index (entries c) key), c).

(** [delete(c.entries, key)]. *)
Definition delete_entry (key : string) : M unit :=
  fun c => (Returns tt, set_entries (map_delete (entries c) key) c).

(** ** The package *)

Local Open Scope go_scope.

(** [NewCache]: the struct it allocates.  The [go c.reapLoop()] it also
    issues starts the sweeper goroutine, which only ever calls [reap]. *)
Definition NewCache (interval : Duration) : Cache :=
  {| mu := Unlocked; entries := make_map; interval := interval |}.

(** [Add]; [now] is the value its call of [time.Now()] returns. *)
Definition Add (now : Time) (key : string) (v : bytes) : M unit :=
  Lock ;;
  defer Unlock
    (assign_entry key {| createdAt := now; val := v |}).

Definition Get (key : string) : M (bytes * bool) :=
  Lock ;;
  defer Unlock
    (let* r := index_entry key in
     let '(entry, ok) := r in
     if negb ok then ret (nil_bytes, false)
     else ret (val entry, true)).

(** One iteration of the loop of [reap] at [key]: a key deleted before it is
    reached is not produced by [range]. *)
Definition reap_visit (now : Time) (key : string) : M unit :=
  fun c =>
    match map_index (entries c) key with
    | (entry, true) =>
        if interval c <? Sub now (createdAt entry)
        then delete_entry key c
        else (Returns tt, c)
    | (_, false) => (Returns tt, c)
    end.

(** The loop of [reap] visiting the keys in the order [keys]. *)
Fixpoint reap_range (now : Time) (keys : list string) : M unit :=
  match keys with
  | [] => ret tt
  | key :: rest => reap_visit now key ;; reap_range now rest
  end.

(** [reap]; [now] is the value its call of [time.Now()] returns. *)
Definition reap (now : Time) : M unit :=
  Lock ;;
  defer Unlock
    (fun c => reap_range now (map_keys (entries c)) c).

(** ** Caches and histories *)

(** A cache between two calls: nobody holds the mutex and the map has been
    allocated. *)
Definition usable (c : Cache) : Prop :=
  mu c = Unlocked /\ entries c <> None.

(** The age [reap] computes for an entry. *)
Definition age (now : Time) (e : cacheEntry) : Duration :=
  Sub now (createdAt e).

(** The test of [reap]: [now.Sub(entry.createdAt) > c.interval]. *)
Definition expired (now : Time) (ttl : Duration) (e : cacheEntry) : bool :=
  ttl <? age now e.

(** Readings of the monotonic clock are non-negative [int64] values. *)
Definition clock_reading (t : Time) : Prop := 0 <= t <= maxDuration.

(** A call of one of the three methods, with the clock reading it takes. *)
Inductive call : Type :=
  | CallAdd (now : Time) (key : string) (v : bytes)
  | CallGet (key : string)
  | CallReap (now : Time).

(** How a call ends (its result value dropped) and the cache it leaves. *)
Definition run_call (op : call) (c : Cache) : outcome unit * Cache :=
  match op with
  | CallAdd now key v => Add now key v c
  | CallGet key =>
      match Get key c with
      | (Returns _, c') => (Returns tt, c')
      | (Panics msg, c') => (Panics msg, c')
      | (Blocks, c') => (Blocks, c')
      end
  | CallReap now => reap now c
  end.

(** The cache after a sequence of calls, oldest first. *)
Definition run_calls (ops : list call) (c : Cache) : Cache :=
  foldl (fun c op => snd (run_call op c)) c ops.

(** A cache holding four entries created at 0, 40, 50 and 60 with an
    interval of 50; swept at 100 the first two and only they are expired. *)
Definition sweep_example : Cache :=
  {| mu := Unlocked;
     entries := Some (<["a" := {| createdAt := 0; val := Some [x01] |}]>
                     (<["b" := {| createdAt := 40; val := None |}]>
                     (<["c" := {| createdAt := 50; val := Some [] |}]>
                     (<["d" := {| createdAt := 60; val := Some [x02] |}]> ∅))));
     interval := 50 |}.

(** ** Goroutines

    The methods again, now one statement at a time, run by any number of
    goroutines on one shared [Cache].  A goroutine is at a program point of
    one of the three methods or outside all of them ([Idle]); who calls the
    methods and when (the command loop, the ticker of [reapLoop]) is left
    open: an idle goroutine may call any method with any arguments at any
    time.  The ticker itself, which [time.NewTicker] refuses to build for an
    interval that is not positive, is not part of the model. *)

Inductive pc : Type :=
  | Idle
  (* Add *)
  | Add_Lock (key : string) (v : bytes)                (* c.mu.Lock() *)
  | Add_Now (key : string) (v : bytes)                 (* time.Now() *)
  | Add_Assign (key : string) (v : bytes) (now : Time) (* c.entries[key] = ... *)
  | Add_Unlock (panicking : option string)             (* deferred c.mu.Unlock() *)
  (* Get *)
  | Get_Lock (key : string)                            (* c.mu.Lock() *)
  | Get_Index (key : string)                           (* entry, ok := c.entries[key] *)
  | Get_Unlock (key : string) (result : bytes * bool)  (* deferred c.mu.Unlock() *)
  (* reap *)
  | Reap_Lock                                          (* c.mu.Lock() *)
  | Reap_Now                                           (* now := time.Now(); range starts *)
  | Reap_Range (now : Time) (remaining : list string)  (* one turn of the loop *)
  | Reap_Unlock                                        (* deferred c.mu.Unlock() *)
  (* an unrecovered panic *)
  | Crashed (msg : string).

(** The program points after the [Lock] of a method has returned and before
    its deferred [Unlock] has: the critical section. *)
Definition inside (p : pc) : bool :=
  match p with
  | Add_Now _ _ | Add_Assign _ _ _ | Add_Unlock _
  | Get_Index _ | Get_Unlock _ _
  | Reap_Now | Reap_Range _ _ | Reap_Unlock => true
  | Idle | Add_Lock _ _ | Get_Lock _ | Reap_Lock | Crashed _ => false
  end.


(** The program points of a deferred [Unlock]. *)
Definition at_unlock (p : pc) : bool :=
  match p with
  | Add_Unlock _ | Get_Unlock _ _ | Reap_Unlock => true
  | _ => false
  end.

(** Where a goroutine is once its deferred [Unlock] has run with outcome
    [o]: back in its caller, or crashed by the panic that was under way or by
    the one [Unlock] raised. *)
Definition leave (p : pc) (o : outcome unit) : pc :=
  match o with
  | Returns _ =>
      match p with
      | Add_Unlock (Some msg) => Crashed msg
      | _ => Idle
      end
  | Panics msg => Crashed msg
  | Blocks => p
  end.


(** One statement of one goroutine.  [Lock] has no step while the mutex is
    held: the goroutine waits. *)
Inductive gstep : pc -> Cache -> pc -> Cache -> Prop :=
  | step_call_Add key v c :
      gstep Idle c (Add_Lock key v) c
  | step_call_Get key c :
      gstep Idle c (Get_Lock key) c
  | step_call_reap c :
      gstep Idle c Reap_Lock c
  | step_Add_Lock key v c c' :
      Lock c = (Returns tt, c') ->
      gstep (Add_Lock key v) c (Add_Now key v) c'
  | step_Add_Now key v now c :
      gstep (Add_Now key v) c (Add_Assign key v now) c
  | step_Add_Assign key v now c c' :
      assign_entry key {| createdAt := now; val := v |} c = (Returns tt, c') ->
      gstep (Add_Assign key v now) c (Add_Unlock None) c'
  | step_Add_Assign_panic key v now c msg c' :
      assign_entry key {| createdAt := now; val := v |} c = (Panics msg, c') ->
      gstep (Add_Assign key v now) c (Add_Unlock (Some msg)) c'
  | step_Get_Lock key c c' :
      Lock c = (Returns tt, c') ->
      gstep (Get_Lock key) c (Get_Index key) c'
  | step_Get_Index key c entry ok c' :
      index_entry key c = (Returns (entry, ok), c') ->
      gstep (Get_Index key) c
            (Get_Unlock key (if negb ok then (nil_bytes, false)
                             else (val entry, true))) c'
  | step_Reap_Lock c c' :
      Lock c = (Returns tt, c') ->
      gstep Reap_Lock c Reap_Now c'
  | step_Reap_Now now keys c :
      keys ≡ₚ map_keys (entries c) ->
      gstep Reap_Now c (Reap_Range now keys) c
  | step_Reap_Range now key rest c c' :
      reap_visit now key c = (Returns tt, c') ->
      gstep (Reap_Range now (key :: rest)) c (Reap_Range now rest) c'
  | step_Reap_Range_end now c :
      gstep (Reap_Range now []) c Reap_Unlock c
  | step_Unlock p c o c' :
      at_unlock p = true ->
      Unlock c = (o, c') ->
      gstep p c (leave p o) c'.

(** The shared cache and the goroutines. *)
Record config : Type := mkConfig {
  shared : Cache;
  pool : list pc
}.

(** Goroutine [i] takes a step. *)
Definition step_of (i : nat) (cfg cfg' : config) : Prop :=
  exists p p',
    pool cfg !! i = Some p /\
    gstep p (shared cfg) p' (shared cfg') /\
    pool cfg' = <[i := p']> (pool cfg).

Definition step (cfg cfg' : config) : Prop := exists i, step_of i cfg cfg'.

(** [n] idle goroutines around the cache [NewCache ttl] has just built. *)
Definition init (ttl : Duration) (n : nat) : config :=
  {| shared := NewCache ttl; pool := replicate n Idle |}.

Inductive reachable (ttl : Duration) (n : nat) : config -> Prop :=
  | reachable_init : reachable ttl n (init ttl n)
  | reachable_step cfg cfg' :
      reachable ttl n cfg -> step cfg cfg' -> reachable ttl n cfg'.




(** ** The invariants of the goroutines *)

(** Outside every critical section and not crashed. *)
Definition waiting (p : pc) : bool :=
  match p with
  | Idle | Add_Lock _ _ | Get_Lock _ | Reap_Lock => true
  | _ => false
  end.

(** How the shared cache [c] relates, at program point [p] of the goroutine
    in its critical section, to the cache [q] it found when it took the
    mutex. *)
Definition cs_inv (q : Cache) (p : pc) (c : Cache) : Prop :=
  match p with
  | Add_Now _ _ | Add_Assign _ _ _ | Get_Index _ | Reap_Now =>
      c = set_mu Locked q
  | Add_Unlock panicking =>
      panicking = None /\ mu c = Locked /\
      exists now key v, Add now key v q = (Returns tt, set_mu Unlocked c)
  | Get_Unlock key r =>
      c = set_mu Locked q /\ Get key q = (Returns r, q)
  | Reap_Range now remaining =>
      exists visited,
        visited ++ remaining ≡ₚ map_keys (entries q) /\
        reap_range now visited (set_mu Locked q) = (Returns tt, c)
  | Reap_Unlock =>
      mu c = Locked /\
      exists now, reap now q = (Returns tt, set_mu Unlocked c)
  | _ => False
  end.

Definition Inv (ttl : Duration) (cfg : config) : Prop :=
  exists ops,
    let q := run_calls ops (NewCache ttl) in
    (shared cfg = q /\
     forall i p, pool cfg !! i = Some p -> waiting p = true)
    \/
    (exists i p,
       pool cfg !! i = Some p /\ cs_inv q p (shared cfg) /\
       forall j p', j <> i -> pool cfg !! j = Some p' -> waiting p' = true).

(** The zero value of [Cache]: what [var c pokecache.Cache] declares. *)
Definition zeroCache : Cache :=
  {| mu := Unlocked; entries := None; interval := 0 |}.

(** Two goroutines; the first has called [Add] and holds the mutex while the
    second has called [Get] and waits at its [Lock]. *)
Definition contended : config :=
  {| shared := set_mu Locked (NewCache 300);
     pool := [Add_Now "a" (Some [x01]); Get_Lock "a"] |}.




(** ** The sweeper *)

(** [time.NewTicker(d)]: it panics unless [d] is positive. *)
Definition NewTicker (d : Duration) : M unit :=
  fun c =>
    if 0 <? d then (Returns tt, c)
    else (Panics "non-positive interval for NewTicker", c).

(** [ticker.Stop()] has no effect on the cache. *)
Definition ticker_Stop : M unit := ret tt.

(** The loop [for range ticker.C { c.reap() }] over the ticks received so
    far; [nows] lists, oldest first, the clock reading each of these calls of
    [reap] takes. *)
Fixpoint reapLoop_range (nows : list Time) : M unit :=
  match nows with
  | [] => ret tt
  | now :: rest => reap now ;; reapLoop_range rest
  end.

(** [reapLoop], up to the ticks received so far.  The channel of the ticker
    is never closed, so the Go function does not return; what is modelled is
    the cache it leaves after each tick. *)
Definition reapLoop (nows : list Time) : M unit :=
  fun c =>
    (NewTicker (interval c) ;;
     defer ticker_Stop (reapLoop_range nows)) c.

(** ** Reading histories *)

(** Some sweep among those at [nows] finds [e] expired. *)
Definition swept (nows : list Time) (ttl : Duration) (e : cacheEntry) : bool :=
  existsb (fun now => expired now ttl e) nows.

(** The clock readings of the [reap] calls of a history, oldest first. *)
Definition reap_times (ops : list call) : list Time :=
  omap (fun op => match op with CallReap now => Some now | _ => None end) ops.

(** Whether a history contains an [Add] on [key]. *)
Definition adds_key (key : string) (ops : list call) : bool :=
  existsb (fun op => match op with
                     | CallAdd _ k _ => bool_decide (k = key)
                     | _ => false
                     end) ops.

(** Every entry carries a clock reading, as entries written by [Add] do. *)
Definition stamped (c : Cache) : Prop :=
  forall k e, lookup_entry k c = Some e -> clock_reading (createdAt e).

(** ** Package main: the commands around the cache

    The command line program that uses the cache.  What lies outside the
    program is taken as given: the network answers with a [response], JSON
    decoding is a function from the bytes to the decoded value or an error,
    and what the program prints or requests is recorded, in order, as a list
    of [event]s. *)

Module Main.

(** [pokecache.Cache], as package main names it. *)
Abbreviation pokecache_Cache := Cache.

(** A Go [error] value that is not nil, by its text. *)
Definition error : Type := string.

(** The line feed of the format strings. *)
Definition nl : string := String (Ascii.ascii_of_nat 10) EmptyString.

Record Stat : Type := mkStat {
  BaseStat : Z;
  Stat_Name : string     (* Stat.Stat.Name *)
}.

Record Type_ : Type := mkType {
  Type_Name : string     (* Type.Type.Name *)
}.

Record Pokemon : Type := mkPokemon {
  Name : string;
  BaseExperience : Z;
  Height : Z;
  Weight : Z;
  Stats : list Stat;
  Types : list Type_
}.

(** [config]; [Cache] is the cache the pointer field points to, [Caught] a
    Go map, [None] when it was never allocated. *)
Record config : Type := mkconfig {
  Next : string;
  Previous : string;
  Current : list string;
  Cache : pokecache_Cache;
  Caught : option (gmap string Pokemon)
}.

Definition set_Next (s : string) (cfg : config) : config :=
  {| Next := s; Previous := Previous cfg; Current := Current cfg;
     Cache := Cache cfg; Caught := Caught cfg |}.

Definition set_Previous (s : string) (cfg : config) : config :=
  {| Next := Next cfg; Previous := s; Current := Current cfg;
     Cache := Cache cfg; Caught := Caught cfg |}.

Definition set_Current (l : list string) (cfg : config) : config :=
  {| Next := Next cfg; Previous := Previous cfg; Current := l;
     Cache := Cache cfg; Caught := Caught cfg |}.

Definition set_Cache (c : pokecache_Cache) (cfg : config) : config :=
  {| Next := Next cfg; Previous := Previous cfg; Current := Current cfg;
     Cache := c; Caught := Caught cfg |}.

Definition set_Caught (m : option (gmap string Pokemon)) (cfg : config) : config :=
  {| Next := Next cfg; Previous := Previous cfg; Current := Current cfg;
     Cache := Cache cfg; Caught := m |}.

(** The struct [displayLocations] decodes into; [Results] keeps the [Name]
    of each element. *)
Record locations : Type := mklocations {
  Results : list string;
  result_Next : string;
  result_Previous : string
}.

(** An operand of a [fmt] printing function. *)
Inductive operand : Type :=
  | Str (s : string)
  | Int (z : Z).

(** What the program does to the outside, in order. *)
Inductive event : Type :=
  | Println (operands : list operand)
  | Printf (format : string) (operands : list operand)
  | Print (operands : list operand)
  | http_Get (url : string)
  | ioutil_ReadAll
  | Body_Close.

(** How the network answers a request: [http.Get] fails, or it hands out a
    body that [ioutil.ReadAll] either fails on or reads to the end. *)
Inductive response : Type :=
  | Get_fails (err : error)
  | Get_ok (body : error + list byte).

(** What a command takes from outside while it runs: the reading of
    [time.Now()] inside [Add], the answer of the network, and the number
    [rand.Intn(100)] returns. *)
Record env : Type := mkenv {
  env_now : Time;
  env_response : response;
  env_Intn : Z
}.

(** How a piece of the program ends: it is done, it panics, it blocks
    forever, or it has left the process through [os.Exit]. *)
Inductive ending (A : Type) : Type :=
  | Done (a : A)
  | Panicked (msg : string)
  | Blocked
  | Exited (code : Z).
Arguments Done {A} a.
Arguments Panicked {A} msg.
Arguments Blocked {A}.
Arguments Exited {A} code.

Definition run (A : Type) : Type := config -> ending A * config * list event.

Definition ret {A} (a : A) : run A := fun cfg => (Done a, cfg, []).

Definition bind {A B} (m : run A) (f : A -> run B) : run B :=
  fun cfg =>
    match m cfg with
    | (Done a, cfg', t) =>
        let '(r, cfg'', t') := f a cfg' in (r, cfg'', t ++ t')
    | (Panicked msg, cfg', t) => (Panicked msg, cfg', t)
    | (Blocked, cfg', t) => (Blocked, cfg', t)
    | (Exited code, cfg', t) => (Exited code, cfg', t)
    end.

Declare Scope main_scope.
Delimit Scope main_scope with main.
Notation "'let*' x ':=' m 'in' k" := (bind m (fun x => k))
  (at level 10, x name, m at level 100, k at level 200) : main_scope.
Notation "m ';;' k" := (bind m (fun _ => k))
  (at level 100, k at level 200, right associativity) : main_scope.
Local Open Scope main_scope.

Definition emit (e : event) : run unit := fun cfg => (Done tt, cfg, [e]).

Definition read {A} (f : config -> A) : run A := fun cfg => (Done (f cfg), cfg, []).

Definition modify (f : config -> config) : run unit :=
  fun cfg => (Done tt, f cfg, []).

(** [os.Exit(code)]. *)
Definition os_Exit {A} (code : Z) : run A := fun cfg => (Exited code, cfg, []).

(** [defer d] followed by [body]: [d] runs when [body] returns or panics,
    not when it blocks or leaves through [os.Exit]. *)
Definition defer {A} (d : run unit) (body : run A) : run A :=
  fun cfg =>
    match body cfg with
    | (Blocked, cfg', t) => (Blocked, cfg', t)
    | (Exited code, cfg', t) => (Exited code, cfg', t)
    | (r, cfg', t) =>
        match d cfg' with
        | (Done _, cfg'', t') => (r, cfg'', t ++ t')
        | (Panicked msg, cfg'', t') => (Panicked msg, cfg'', t ++ t')
        | (Blocked, cfg'', t') => (Blocked, cfg'', t ++ t')
        | (Exited code, cfg'', t') => (Exited code, cfg'', t ++ t')
        end
    end.

(** A call of a method of [cfg.Cache]. *)
Definition on_Cache {A} (m : M A) : run A :=
  fun cfg =>
    match m (Cache cfg) with
    | (Returns a, c) => (Done a, set_Cache c cfg, [])
    | (Panics msg, c) => (Panicked msg, set_Cache c cfg, [])
    | (Blocks, c) => (Blocked, set_Cache c cfg, [])
    end.

(** [for _, x := range l { body }]. *)
Fixpoint for_range {B} (l : list B) (body : B -> run unit) : run unit :=
  match l with
  | [] => ret tt
  | x :: rest => body x ;; for_range rest body
  end.

(** [cfg.Caught[name] = pokemon]. *)
Definition assign_Caught (name : string) (pokemon : Pokemon) : run unit :=
  fun cfg =>
    match Caught cfg with
    | Some g => (Done tt, set_Caught (Some (<[name := pokemon]> g)) cfg, [])
    | None => (Panicked "assignment to entry in nil map", cfg, [])
    end.

(** [pokemon, exists := cfg.Caught[name]]. *)
Definition index_Caught (name : string) : run (option Pokemon) :=
  read (fun cfg => match Caught cfg with
                   | Some g => g !! name
                   | None => None
                   end).

(** The names a [range] over [cfg.Caught] hands out, in one of the orders
    Go may choose. *)
Definition Caught_names (cfg : config) : list string :=
  match Caught cfg with
  | Some g => (map_to_list g).*1
  | None => []
  end.

Section Commands.

(** [json.Unmarshal] into the three structs the program decodes. *)
Variable Unmarshal_locations : bytes -> error + locations.
Variable Unmarshal_encounters : bytes -> error + list string.
Variable Unmarshal_Pokemon : bytes -> error + Pokemon.

Definition commandHelp (w : env) (args : list string) : run (option error) :=
  emit (Println [Str "Welcome to the Pokedex!"]) ;;
  emit (Println [Str "Usage:"]) ;;
  emit (Println [Str "help: Displays a help message"]) ;;
  emit (Println [Str "exit: Exit the Pokedex"]) ;;
  emit (Println [Str "map: Display the next 20 location areas"]) ;;
  emit (Println [Str "mapb: Display the previous 20 location areas"]) ;;
  emit (Println [Str "explore <area_name>: Explore a specific location area"]) ;;
  emit (Println [Str "catch <pokemon_name>: Try to catch a Pokémon"]) ;;
  emit (Println [Str "inspect <pokemon_name>: Inspect a caught Pokémon"]) ;;
  emit (Println [Str "pokedex: List all caught Pokémon"]) ;;
  ret None.

Definition commandExit (w : env) (args : list string) : run (option error) :=
  emit (Println [Str "Exiting Pokedex..."]) ;;
  os_Exit 0.

Definition displayLocations (data : bytes) : run (option error) :=
  match Unmarshal_locations data with
  | inl err => ret (Some err)
  | inr result =>
      modify (set_Next (result_Next result)) ;;
      modify (set_Previous (result_Previous result)) ;;
      modify (set_Current []) ;;
      for_range (Results result)
        (fun location =>
           modify (fun cfg => set_Current (Current cfg ++ [location]) cfg)) ;;
      let* current := read Current in
      for_range current (fun location => emit (Println [Str location])) ;;
      ret None
  end.

Definition displayPokemon (data : bytes) : run (option error) :=
  match Unmarshal_encounters data with
  | inl err => ret (Some err)
  | inr encounters =>
      emit (Println [Str "Found Pokemon:"]) ;;
      for_range encounters
        (fun name => emit (Printf (" - %s" +:+ nl) [Str name])) ;;
      ret None
  end.

Definition attemptCatch (w : env) (data : bytes) : run (option error) :=
  match Unmarshal_Pokemon data with
  | inl err => ret (Some err)
  | inr pokemon =>
      emit (Printf ("Throwing a Pokeball at %s..." +:+ nl) [Str (Name pokemon)]) ;;
      (* rand.Seed(time.Now().UnixNano()); chance := rand.Intn(100) *)
      let chance := env_Intn w in
      if chance <? 50 then
        emit (Printf ("%s escaped!" +:+ nl) [Str (Name pokemon)]) ;;
        ret None
      else
        emit (Printf ("%s was caught!" +:+ nl) [Str (Name pokemon)]) ;;
        assign_Caught (Name pokemon) pokemon ;;
        ret None
  end.

Definition fetchLocations (w : env) (url : string) : run (option error) :=
  let* r := on_Cache (Get url) in
  let '(data, ok) := r in
  if ok then
    emit (Println [Str "Using cached data"]) ;;
    displayLocations data
  else
    emit (Println [Str "Fetching new data"]) ;;
    emit (http_Get url) ;;
    match env_response w with
    | Get_fails err => ret (Some err)
    | Get_ok body =>
        defer (emit Body_Close)
          (emit ioutil_ReadAll ;;
           match body with
           | inl err => ret (Some err)
           | inr body =>
               on_Cache (Add (env_now w) url (Some body)) ;;
               displayLocations (Some body)
           end)
    end.

Definition fetchLocationDetails (w : env) (url : string) : run (option error) :=
  let* r := on_Cache (Get url) in
  let '(data, ok) := r in
  if ok then
    emit (Println [Str "Using cached data"]) ;;
    displayPokemon data
  else
    emit (Println [Str "Fetching new data"]) ;;
    emit (http_Get url) ;;
    match env_response w with
    | Get_fails err => ret (Some err)
    | Get_ok body =>
        defer (emit Body_Close)
          (emit ioutil_ReadAll ;;
           match body with
           | inl err => ret (Some err)
           | inr body =>
               on_Cache (Add (env_now w) url (Some body)) ;;
               displayPokemon (Some body)
           end)
    end.

Definition catchPokemon (w : env) (url : string) : run (option error) :=
  let* r := on_Cache (Get url) in
  let '(data, ok) := r in
  if ok then
    attemptCatch w data
  else
    emit (Println [Str "Fetching new data"]) ;;
    emit (http_Get url) ;;
    match env_response w with
    | Get_fails err => ret (Some err)
    | Get_ok body =>
        defer (emit Body_Close)
          (emit ioutil_ReadAll ;;
           match body with
           | inl err => ret (Some err)
           | inr body =>
               on_Cache (Add (env_now w) url (Some body)) ;;
               attemptCatch w (Some body)
           end)
    end.

Definition commandMap (w : env) (args : list string) : run (option error) :=
  let* next := read Next in
  (if String.eqb next ""
   then modify (set_Next "https://pokeapi.co/api/v2/location-area/")
   else ret tt) ;;
  let* next := read Next in
  fetchLocations w next.

Definition commandMapB (w : env) (args : list string) : run (option error) :=
  let* previous := read Previous in
  if String.eqb previous "" then
    emit (Println [Str "No previous locations to display."]) ;;
    ret None
  else
    fetchLocations w previous.

Definition commandExplore (w : env) (args : list string) : run (option error) :=
  match args with
  | [] =>
      emit (Println [Str "Please specify a location area to explore."]) ;;
      ret None
  | areaName :: _ =>
      let url := "https://pokeapi.co/api/v2/location-area/" +:+ areaName +:+ "/" in
      fetchLocationDetails w url
  end.

Definition commandCatch (w : env) (args : list string) : run (option error) :=
  match args with
  | [] =>
      emit (Println [Str "Please specify a Pokémon to catch."]) ;;
      ret None
  | pokemonName :: _ =>
      let url := "https://pokeapi.co/api/v2/pokemon/" +:+ pokemonName +:+ "/" in
      catchPokemon w url
  end.

Definition printPokemonDetails (pokemon : Pokemon) : run unit :=
  emit (Printf ("Name: %s" +:+ nl) [Str (Name pokemon)]) ;;
  emit (Printf ("Height: %d" +:+ nl) [Int (Height pokemon)]) ;;
  emit (Printf ("Weight: %d" +:+ nl) [Int (Weight pokemon)]) ;;
  emit (Println [Str "Stats:"]) ;;
  for_range (Stats pokemon)
    (fun stat => emit (Printf ("  -%s: %d" +:+ nl)
                         [Str (Stat_Name stat); Int (BaseStat stat)])) ;;
  emit (Println [Str "Types:"]) ;;
  for_range (Types pokemon)
    (fun typ => emit (Printf ("  - %s" +:+ nl) [Str (Type_Name typ)])).

Definition commandInspect (w : env) (args : list string) : run (option error) :=
  match args with
  | [] =>
      emit (Println [Str "Please specify a Pokémon to inspect."]) ;;
      ret None
  | pokemonName :: _ =>
      let* found := index_Caught pokemonName in
      match found with
      | Some pokemon => printPokemonDetails pokemon
      | None => emit (Println [Str "You have not caught that Pokémon."])
      end ;;
      ret None
  end.

Definition commandPokedex (w : env) (args : list string) : run (option error) :=
  emit (Println [Str "Your Pokedex:"]) ;;
  let* names := read Caught_names in
  for_range names (fun name => emit (Printf (" - %s" +:+ nl) [Str name])) ;;
  ret None.

(** [cliCommand]; the callback also takes what the command needs from
    outside. *)
Record cliCommand : Type := mkcliCommand {
  name : string;
  description : string;
  callback : env -> list string -> run (option error)
}.

(** The [commands] map of [main]. *)
Definition commands : gmap string cliCommand :=
  list_to_map
    [("help", mkcliCommand "help" "Displays a help message" commandHelp);
     ("exit", mkcliCommand "exit" "Exit the Pokedex" commandExit);
     ("map", mkcliCommand "map" "Display the next 20 location areas" commandMap);
     ("mapb", mkcliCommand "mapb" "Display the previous 20 location areas" commandMapB);
     ("explore", mkcliCommand "explore" "Explore a specific location area" commandExplore);
     ("catch", mkcliCommand "catch" "Catch a specific Pokémon" commandCatch);
     ("inspect", mkcliCommand "inspect" "Inspect a caught Pokémon" commandInspect);
     ("pokedex", mkcliCommand "pokedex" "List all caught Pokémon" commandPokedex)].

(** One turn of the loop of [main].  [input] is the line read, trimmed, and
    [parts] its fields, as [strings.TrimSpace] and [strings.Fields] give
    them. *)
Definition main_turn (w : env) (input : string) (parts : list string) : run unit :=
  emit (Print [Str "Pokedex > "]) ;;
  match parts with
  | [] => ret tt
  | cmdName :: args =>
      match commands !! cmdName with
      | Some cmd => callback cmd w args ;; ret tt
      | None => emit (Println [Str "Unknown command:"; Str input])
      end
  end.

End Commands.

(** [time.Minute], in nanoseconds. *)
Definition Minute : Duration := 60 * 1000000000.

(** The [config] [main] starts its loop with. *)
Definition main_config : config :=
  {| Next := ""; Previous := ""; Current := [];
     Cache := NewCache (5 * Minute);
     Caught := Some ∅ |}.

(** The events of a trace that go to the network. *)
Definition on_network (e : event) : bool :=
  match e with
  | http_Get _ | ioutil_ReadAll | Body_Close => true
  | _ => false
  end.

(** A configuration in which no command panics: the cache is usable and
    [Caught] is allocated. *)
Definition ready (cfg : config) : Prop :=
  usable (Cache cfg) /\ Caught cfg <> None.

(** The Pokemon caught under a name, if any. *)
Definition caught (name : string) (cfg : config) : option Pokemon :=
  match Caught cfg with
  | Some g => g !! name
  | None => None
  end.

(** A piece of the program started in [cfg] is done and the program can
    carry on: the configuration is still ready, the interval of the cache is
    the same, and every name caught is still caught. *)
Definition carries_on {A} (cfg : config) (x : ending A * config * list event) : Prop :=
  let '(r, cfg', _) := x in
  (exists a, r = Done a) /\
  ready cfg' /\
  interval (Cache cfg') = interval (Cache cfg) /\
  forall name, is_Some (caught name cfg) -> is_Some (caught name cfg').

(** Stand-ins for [json.Unmarshal] in the examples: each knows one
    document and rejects everything else. *)
Definition example_page : locations :=
  {| Results := ["canalave-city-area"; "eterna-city-area"];
     result_Next := "https://pokeapi.co/api/v2/location-area/?offset=20&limit=20";
     result_Previous := "" |}.

Definition example_pokemon : Pokemon :=
  {| Name := "pikachu"; BaseExperience := 112; Height := 4; Weight := 60;
     Stats := [{| BaseStat := 35; Stat_Name := "hp" |}];
     Types := [{| Type_Name := "electric" |}] |}.

Definition example_Unmarshal_locations (data : bytes) : error + locations :=
  match data with
  | Some [x01] => inr example_page
  | _ => inl "unexpected end of JSON input"
  end.

Definition example_Unmarshal_encounters (data : bytes) : error + list string :=
  match data with
  | Some [x02] => inr ["tentacool"; "tentacruel"]
  | _ => inl "unexpected end of JSON input"
  end.

Definition example_Unmarshal_Pokemon (data : bytes) : error + Pokemon :=
  match data with
  | Some [x03] => inr example_pokemon
  | _ => inl "unexpected end of JSON input"
  end.

(** What the examples take from outside. *)
Definition example_env (resp : response) (chance : Z) : env :=
  {| env_now := 1000; env_response := resp; env_Intn := chance |}.

(** A second Pokemon, and the configuration of [main] once both have been
    caught. *)
Definition example_eevee : Pokemon :=
  {| Name := "eevee"; BaseExperience := 65; Height := 3; Weight := 65;
     Stats := [{| BaseStat := 55; Stat_Name := "hp" |}];
     Types := [{| Type_Name := "normal" |}] |}.

Definition example_trainer : config :=
  {| Next := ""; Previous := ""; Current := [];
     Cache := NewCache (5 * Minute);
     Caught := Some (<["pikachu" := example_pokemon]>
                    (<["eevee" := example_eevee]> ∅)) |}.

(** The configuration of [main] after the document of [example_page] was
    cached under the URL ["u"]. *)
Definition example_cached : config :=
  {| Next := ""; Previous := ""; Current := [];
     Cache := {| mu := Unlocked;
                 entries := Some {[ "u" := {| createdAt := 5; val := Some [x01] |} ]};
                 interval := 5 * Minute |};
     Caught := Some ∅ |}.

End Main.

(** ** Arithmetic of [Sub] *)

Lemma wrap64_id (z : Z) : int64_range z -> wrap64 z = z.
Proof.
  unfold int64_range, minDuration, maxDuration, wrap64. intros Hz.
  rewrite Z.mod_small; lia.
Qed.

(** On clock readings [Sub] is the plain difference. *)
Lemma Sub_clock_readings (t u : Time) :
  clock_reading t -> clock_reading u -> Sub t u = t - u.
Proof.
  unfold clock_reading, maxDuration. intros Ht Hu.
  unfold Sub. rewrite wrap64_id by (unfold int64_range, minDuration, maxDuration; lia).
  destruct (Z.ltb_spec (t - u) 0), (Z.ltb_spec u t), (Z.ltb_spec 0 (t - u)),
    (Z.ltb_spec t u); simpl; lia.
Qed.

(** ** What each method computes *)

Lemma Add_run (now : Time) (key : string) (v : bytes) (c : Cache)
    (g : gmap string cacheEntry) :
  mu c = Unlocked ->
  entries c = Some g ->
  Add now key v c =
    (Returns tt,
     {| mu := Unlocked;
        entries := Some (<[key := {| createdAt := now; val := v |}]> g);
        interval := interval c |}).
Proof.
  intros Hmu Hg. unfold Add, bind, defer, Lock, Unlock, assign_entry.
  rewrite Hmu. cbn. rewrite Hg. reflexivity.
Qed.

Lemma Get_run (key : string) (c : Cache) :
  mu c = Unlocked ->
  Get key c =
    (Returns match lookup_entry key c with
             | Some e => (val e, true)
             | None => (nil_bytes, false)
             end, c).
Proof.
  intros Hmu. unfold Get, bind, defer, Lock, Unlock, index_entry, lookup_entry.
  rewrite Hmu. cbn. unfold map_index.
  destruct c as [m [g|] i]; cbn in *; subst; [destruct (g !! key)|]; reflexivity.
Qed.

Lemma Get_blocked (key : string) (c : Cache) :
  mu c = Locked -> Get key c = (Blocks, c).
Proof. intros Hmu. unfold Get, bind, Lock. by rewrite Hmu. Qed.

(** One visit of the loop of [reap]. *)
Lemma reap_visit_run (now : Time) (key : string) (c : Cache) :
  exists c',
    reap_visit now key c = (Returns tt, c') /\
    mu c' = mu c /\ interval c' = interval c /\
    (entries c = None <-> entries c' = None) /\
    forall k, lookup_entry k c' =
      match lookup_entry k c with
      | Some e => if bool_decide (k = key) && expired now (interval c) e
                  then None else Some e
      | None => None
      end.
Proof.
  unfold reap_visit, delete_entry, map_index, lookup_entry, expired, age.
  destruct c as [m [g|] i]; cbn.
  - destruct (g !! key) as [e|] eqn:He.
    + destruct (i <? Sub now (createdAt e)) eqn:Hexp.
      * eexists; split; [reflexivity|]. cbn. repeat split; try done.
        intros k. destruct (decide (k = key)) as [->|Hne].
        -- rewrite lookup_delete_eq, He, bool_decide_eq_true_2 by done.
           cbn. by rewrite Hexp.
        -- rewrite lookup_delete_ne by done.
           rewrite bool_decide_eq_false_2 by done. by destruct (g !! k).
      * eexists; split; [reflexivity|]. cbn. repeat split; try done.
        intros k. destruct (g !! k) as [e'|] eqn:He'; [|done].
        case_bool_decide; [|done]. subst k. cbn.
        assert (e' = e) as -> by congruence. by rewrite Hexp.
    + eexists; split; [reflexivity|]. cbn. repeat split; try done.
      intros k. destruct (g !! k) as [e'|] eqn:He'; [|done].
      case_bool_decide; [congruence|done].
  - eexists; split; [reflexivity|]. by cbn.
Qed.

(** The loop of [reap] over any list of keys, in any order and with or
    without repetitions: exactly the expired entries among the visited keys
    go. *)
Lemma reap_range_run (now : Time) (keys : list string) (c : Cache) :
  exists c',
    reap_range now keys c = (Returns tt, c') /\
    mu c' = mu c /\ interval c' = interval c /\
    (entries c = None <-> entries c' = None) /\
    forall k, lookup_entry k c' =
      match lookup_entry k c with
      | Some e => if bool_decide (k ∈ keys) && expired now (interval c) e
                  then None else Some e
      | None => None
      end.
Proof.
  revert c. induction keys as [|key rest IH]; intros c.
  - exists c. cbn. repeat split; try done.
    intros k. destruct (lookup_entry k c); [|done].
    by rewrite bool_decide_eq_false_2 by apply not_elem_of_nil.
  - destruct (reap_visit_run now key c) as (c1 & Hrun1 & Hmu1 & Hi1 & Hnil1 & Hl1).
    destruct (IH c1) as (c2 & Hrun2 & Hmu2 & Hi2 & Hnil2 & Hl2).
    exists c2. cbn. unfold bind. rewrite Hrun1, Hrun2.
    split; [done|]. split; [congruence|]. split; [congruence|].
    split; [tauto|].
    intros k. rewrite Hl2, Hl1, Hi1.
    destruct (lookup_entry k c) as [e|]; [|done].
    destruct (expired now (interval c) e) eqn:Hexp;
      rewrite ?andb_true_r, ?andb_false_r; cbn.
    + destruct (decide (k = key)) as [->|Hne].
      * rewrite bool_decide_eq_true_2 by done. cbn.
        by rewrite bool_decide_eq_true_2 by (apply elem_of_cons; by left).
      * rewrite bool_decide_eq_false_2 by done. cbn. rewrite Hexp, andb_true_r.
        destruct (decide (k ∈ rest)) as [Hin|Hnin].
        -- rewrite !bool_decide_eq_true_2; [done| apply elem_of_cons; by right | done].
        -- rewrite !bool_decide_eq_false_2; [done| |done].
           intros [?|?]%elem_of_cons; done.
    + by rewrite Hexp, andb_false_r.
Qed.

Lemma elem_of_map_keys (c : Cache) (k : string) :
  k ∈ map_keys (entries c) <-> is_Some (lookup_entry k c).
Proof.
  unfold map_keys, lookup_entry. destruct (entries c) as [g|].
  - rewrite list_elem_of_fmap. split.
    + intros ([k' e] & -> & Hin). apply elem_of_map_to_list in Hin. by exists e.
    + intros [e He]. exists (k, e). split; [done|]. by apply elem_of_map_to_list.
  - split; [intros []%not_elem_of_nil | intros [? ?]; done].
Qed.

(** The whole of [reap], started on an unlocked cache. *)
Lemma reap_run (now : Time) (c : Cache) :
  mu c = Unlocked ->
  exists c',
    reap now c = (Returns tt, c') /\
    mu c' = Unlocked /\ interval c' = interval c /\
    (entries c = None <-> entries c' = None) /\
    forall k, lookup_entry k c' =
      match lookup_entry k c with
      | Some e => if expired now (interval c) e then None else Some e
      | None => None
      end.
Proof.
  intros Hmu. unfold reap, bind, defer, Lock, Unlock. rewrite Hmu.
  set (c0 := set_mu Locked c).
  destruct (reap_range_run now (map_keys (entries c0)) c0)
    as (c1 & Hrun & Hmu1 & Hi1 & Hnil1 & Hl1).
  rewrite Hrun, Hmu1. cbn.
  eexists; split; [reflexivity|]. cbn.
  split; [done|]. split; [done|]. split; [done|].
  intros k. change (lookup_entry k (set_mu Unlocked c1)) with (lookup_entry k c1).
  rewrite Hl1. change (lookup_entry k c0) with (lookup_entry k c).
  destruct (lookup_entry k c) as [e|] eqn:He; [|done].
  rewrite bool_decide_eq_true_2; [done|].
  apply elem_of_map_keys. change (lookup_entry k c0) with (lookup_entry k c).
  by rewrite He.
Qed.


Lemma Add_nil_map_panics (now : Time) (key : string) (v : bytes) (ttl : Duration) :
  Add now key v {| mu := Unlocked; entries := None; interval := ttl |} =
    (Panics "assignment to entry in nil map",
     {| mu := Unlocked; entries := None; interval := ttl |}).
Proof. reflexivity. Qed.

(** ** Properties of the methods *)

Lemma usable_NewCache (ttl : Duration) : usable (NewCache ttl).
Proof. split; [reflexivity | discriminate]. Qed.

Lemma usable_entries (c : Cache) :
  usable c -> exists g, mu c = Unlocked /\ entries c = Some g.
Proof. intros [Hmu Hg]. destruct (entries c) as [g|]; [by exists g | done]. Qed.

(** C1 (write then read): on a cache that is not locked and whose map is
    allocated, [Add key v] returns, and a [Get key] issued right after it
    returns the pair [(v, true)]. *)
Theorem Add_then_Get (c : Cache) (now : Time) (key : string) (v : bytes) :
  usable c ->
  exists c',
    Add now key v c = (Returns tt, c') /\
    Get key c' = (Returns (v, true), c').
Proof.
  intros (g & Hmu & Hg)%usable_entries.
  eexists. split; [by apply Add_run|].
  rewrite Get_run by done. unfold lookup_entry. cbn.
  by rewrite lookup_insert_eq.
Qed.

Lemma Add_then_Get_witness :
  exists c',
    Add 7 "pikachu" (Some [x01; x02; x03]) (NewCache 300) = (Returns tt, c') /\
    Get "pikachu" c' = (Returns (Some [x01; x02; x03], true), c').
Proof. apply (Add_then_Get (NewCache 300)). split; [reflexivity | discriminate]. Defined.

(** C2 (overwrite): after [Add key v1] and then [Add key v2], [Get key]
    returns [(v2, true)]; the entry under [key] is the one the second call
    wrote, and the cache is the one the second call alone would have left, so
    nothing of [v1] is kept. *)
Theorem Add_overwrites (c : Cache) (now1 now2 : Time) (key : string) (v1 v2 : bytes) :
  usable c ->
  exists c1 c2,
    Add now1 key v1 c = (Returns tt, c1) /\
    Add now2 key v2 c1 = (Returns tt, c2) /\
    Get key c2 = (Returns (v2, true), c2) /\
    (v1 <> v2 -> fst (Get key c2) <> Returns (v1, true)) /\
    lookup_entry key c2 = Some {| createdAt := now2; val := v2 |} /\
    Add now2 key v2 c = (Returns tt, c2).
Proof.
  intros (g & Hmu & Hg)%usable_entries.
  eexists _, _. split; [by apply Add_run|].
  split; [by apply Add_run|].
  assert (HGet : forall c2 : Cache,
    c2 = {| mu := Unlocked;
            entries := Some (<[key:={| createdAt := now2; val := v2 |}]>
                             (<[key:={| createdAt := now1; val := v1 |}]> g));
            interval := interval c |} ->
    Get key c2 = (Returns (v2, true), c2)).
  { intros c2 ->. rewrite Get_run by done. unfold lookup_entry. cbn.
    by rewrite lookup_insert_eq. }
  split; [by apply HGet|].
  split; [rewrite HGet by done; cbn; congruence|].
  split; [unfold lookup_entry; cbn; by rewrite lookup_insert_eq|].
  rewrite (Add_run now2 key v2 c g) by done. cbn.
  by rewrite insert_insert_eq.
Qed.

Lemma Add_overwrites_witness :
  exists c1 c2,
    Add 1 "x" (Some [x09]) (NewCache 1000000000) = (Returns tt, c1) /\
    Add 2 "x" (Some [x08]) c1 = (Returns tt, c2) /\
    Get "x" c2 = (Returns (Some [x08], true), c2) /\
    (Some [x09] <> Some [x08] -> fst (Get "x" c2) <> Returns (Some [x09], true)) /\
    lookup_entry "x" c2 = Some {| createdAt := 2; val := Some [x08] |} /\
    Add 2 "x" (Some [x08]) (NewCache 1000000000) = (Returns tt, c2).
Proof.
  apply (Add_overwrites (NewCache 1000000000)). split; [reflexivity | discriminate].
Defined.

(** C3 (miss on empty): [NewCache] allocates an empty map, and on the cache
    it returns [Get] answers every key with the nil payload and [false],
    leaving the cache as it was. *)
Theorem Get_fresh_misses (ttl : Duration) (key : string) :
  entries (NewCache ttl) = Some ∅ /\
  Get key (NewCache ttl) = (Returns (nil_bytes, false), NewCache ttl).
Proof.
  split; [reflexivity|].
  rewrite Get_run by reflexivity. unfold lookup_entry. cbn.
  by rewrite lookup_empty.
Qed.

(** C4 (sweep): one call of [reap] on a cache that is not locked returns and
    leaves the interval alone; afterwards a key holds an entry exactly when
    it held one before whose age [now.Sub(createdAt)] is at most the
    interval, and that entry is the old one, payload and [createdAt]
    included.  An entry aged exactly the interval stays.  For clock readings
    the age is the difference [now - createdAt], so an entry goes exactly
    when [now - createdAt > interval]. *)
Theorem reap_removes_exactly_expired (c : Cache) (now : Time) :
  mu c = Unlocked ->
  exists c',
    reap now c = (Returns tt, c') /\
    interval c' = interval c /\
    (forall k, lookup_entry k c' =
       match lookup_entry k c with
       | Some e => if interval c <? age now e then None else Some e
       | None => None
       end) /\
    (forall k e, lookup_entry k c = Some e -> age now e <= interval c ->
       lookup_entry k c' = Some e) /\
    (forall k e, lookup_entry k c = Some e -> age now e = interval c ->
       lookup_entry k c' = Some e) /\
    (forall k e, lookup_entry k c = Some e ->
       clock_reading now -> clock_reading (createdAt e) ->
       (lookup_entry k c' = None <-> now - createdAt e > interval c)).
Proof.
  intros Hmu.
  destruct (reap_run now c Hmu) as (c' & Hrun & _ & Hi & _ & Hl).
  unfold expired in Hl.
  exists c'. split; [done|]. split; [done|]. split; [done|].
  assert (Hkeep : forall k e, lookup_entry k c = Some e ->
            age now e <= interval c -> lookup_entry k c' = Some e).
  { intros k e He Hage. rewrite Hl, He.
    destruct (Z.ltb_spec (interval c) (age now e)); [lia | done]. }
  split; [done|]. split; [intros k e He Hage; apply Hkeep; [done | lia]|].
  intros k e He Hnow Hcreated. rewrite Hl, He. unfold age.
  rewrite Sub_clock_readings by done.
  destruct (Z.ltb_spec (interval c) (now - createdAt e)); split; try done; lia.
Qed.

Lemma reap_removes_exactly_expired_witness :
  exists c',
    reap 100 sweep_example = (Returns tt, c') /\
    interval c' = 50 /\
    lookup_entry "a" c' = None /\
    lookup_entry "b" c' = None /\
    lookup_entry "c" c' = Some {| createdAt := 50; val := Some [] |} /\
    lookup_entry "d" c' = Some {| createdAt := 60; val := Some [x02] |}.
Proof.
  destruct (reap_removes_exactly_expired sweep_example 100 eq_refl)
    as (c' & Hrun & Hi & Hl & _).
  exists c'. split; [exact Hrun|]. split; [exact Hi|].
  rewrite !Hl. vm_compute. repeat split.
Defined.

(** C5 (no age check in [Get]): whatever the age of the entry stored under
    [key], [Get key] on a cache that is not locked returns its payload and
    [true]; this includes an entry that a sweep at time [now] would remove,
    and after that sweep [Get key] misses. *)
Theorem Get_ignores_age (c : Cache) (key : string) (e : cacheEntry) :
  mu c = Unlocked ->
  lookup_entry key c = Some e ->
  Get key c = (Returns (val e, true), c) /\
  forall now, expired now (interval c) e = true ->
    exists c',
      reap now c = (Returns tt, c') /\
      Get key c' = (Returns (nil_bytes, false), c').
Proof.
  intros Hmu He. split.
  - rewrite Get_run by done. by rewrite He.
  - intros now Hexp.
    destruct (reap_run now c Hmu) as (c' & Hrun & Hmu' & _ & _ & Hl).
    exists c'. split; [done|].
    rewrite Get_run by done. by rewrite Hl, He, Hexp.
Qed.

Lemma Get_ignores_age_witness :
  Get "a" sweep_example = (Returns (Some [x01], true), sweep_example) /\
  expired 100 (interval sweep_example) {| createdAt := 0; val := Some [x01] |} = true /\
  exists c',
    reap 100 sweep_example = (Returns tt, c') /\
    Get "a" c' = (Returns (nil_bytes, false), c').
Proof.
  destruct (Get_ignores_age sweep_example "a" {| createdAt := 0; val := Some [x01] |}
              eq_refl eq_refl) as [Hget Hreap].
  split; [exact Hget|]. split; [reflexivity|].
  apply Hreap. reflexivity.
Defined.

(** C6 (independent keys): [Add key1 v1] leaves whatever is stored under a
    different key [key2] as it was, presence, payload and [createdAt], and
    [Get key2] answers after it what it answered before. *)
Theorem Add_other_key (c : Cache) (now : Time) (key1 key2 : string) (v1 : bytes) :
  usable c ->
  key1 <> key2 ->
  exists c',
    Add now key1 v1 c = (Returns tt, c') /\
    lookup_entry key2 c' = lookup_entry key2 c /\
    fst (Get key2 c') = fst (Get key2 c).
Proof.
  intros (g & Hmu & Hg)%usable_entries Hne.
  eexists. split; [by apply Add_run|].
  assert (Hl : lookup_entry key2
                 {| mu := Unlocked;
                    entries := Some (<[key1:={| createdAt := now; val := v1 |}]> g);
                    interval := interval c |} = lookup_entry key2 c).
  { unfold lookup_entry. cbn. rewrite Hg. by apply lookup_insert_ne. }
  split; [done|].
  rewrite !Get_run by done. cbn [fst]. by rewrite Hl.
Qed.

Lemma Add_other_key_witness :
  exists c',
    Add 70 "e" (Some [x05]) sweep_example = (Returns tt, c') /\
    lookup_entry "d" c' = lookup_entry "d" sweep_example /\
    fst (Get "d" c') = fst (Get "d" sweep_example).
Proof.
  apply (Add_other_key sweep_example 70 "e" "d" (Some [x05])).
  - split; [reflexivity | discriminate].
  - discriminate.
Defined.

(** C7 (overwrite resets the age clock): [Add] on a key that already holds
    an entry leaves under that key the entry made of the new payload and the
    clock reading of this call; the old payload and the old [createdAt] play no
    part in the result, which is the same from every cache that differs
    only in what it held under that key. *)
Theorem Add_resets_age (c : Cache) (now : Time) (key : string) (v : bytes)
    (old : cacheEntry) :
  usable c ->
  lookup_entry key c = Some old ->
  exists c',
    Add now key v c = (Returns tt, c') /\
    lookup_entry key c' = Some {| createdAt := now; val := v |} /\
    (forall e, lookup_entry key c' = Some e -> createdAt e = now /\ val e = v) /\
    (forall c0, usable c0 -> interval c0 = interval c ->
       (forall k, k <> key -> lookup_entry k c0 = lookup_entry k c) ->
       Add now key v c0 = (Returns tt, c')).
Proof.
  intros (g & Hmu & Hg)%usable_entries Hold.
  eexists. split; [by apply Add_run|].
  assert (Hl : lookup_entry key
                 {| mu := Unlocked;
                    entries := Some (<[key:={| createdAt := now; val := v |}]> g);
                    interval := interval c |}
               = Some {| createdAt := now; val := v |}).
  { unfold lookup_entry. cbn. by rewrite lookup_insert_eq. }
  split; [done|]. split.
  { intros e He. rewrite Hl in He. by inversion He. }
  intros c0 (g0 & Hmu0 & Hg0)%usable_entries Hi Hsame.
  rewrite (Add_run now key v c0 g0) by done. rewrite Hi.
  do 3 f_equal. apply map_eq. intros k.
  destruct (decide (k = key)) as [->|Hne].
  - by rewrite !lookup_insert_eq.
  - rewrite !lookup_insert_ne by done.
    specialize (Hsame k Hne). unfold lookup_entry in Hsame.
    by rewrite Hg, Hg0 in Hsame.
Qed.

Lemma Add_resets_age_witness :
  exists c',
    Add 90 "a" (Some [x07]) sweep_example = (Returns tt, c') /\
    lookup_entry "a" c' = Some {| createdAt := 90; val := Some [x07] |}.
Proof.
  destruct (Add_resets_age sweep_example 90 "a" (Some [x07])
              {| createdAt := 0; val := Some [x01] |}) as (c' & Hrun & Hl & _).
  - split; [reflexivity | discriminate].
  - reflexivity.
  - exists c'. split; [exact Hrun | exact Hl].
Defined.

(** Every call on a usable cache returns and leaves a usable cache. *)
Lemma run_call_usable (op : call) (c : Cache) :
  usable c ->
  exists c', run_call op c = (Returns tt, c') /\ usable c'.
Proof.
  intros Hc. pose proof Hc as (g & Hmu & Hg)%usable_entries.
  destruct op as [now key v|key|now]; cbn.
  - rewrite (Add_run now key v c g) by done.
    eexists; split; [done|]. by split.
  - rewrite Get_run by done. by exists c.
  - destruct (reap_run now c Hmu) as (c' & Hrun & Hmu' & _ & Hnil & _).
    exists c'. split; [done|]. split; [done|].
    intros Hnone. apply Hnil in Hnone. congruence.
Qed.

Lemma run_calls_usable (ops : list call) (c : Cache) :
  usable c -> usable (run_calls ops c).
Proof.
  revert c. induction ops as [|op ops IH]; intros c Hc; [done|].
  cbn. apply IH.
  destruct (run_call_usable op c Hc) as (c' & -> & Hc'). done.
Qed.

(** C8 (no error taxonomy): on the cache [NewCache] returns, and on the cache
    left by any sequence of [Add], [Get] and [reap] calls on it, [Add]
    returns for every key and payload, it does not panic and does not block,
    and so does [Get], whose only report of absence is its boolean. *)
Theorem calls_never_fail (ttl : Duration) (ops : list call) :
  let c := run_calls ops (NewCache ttl) in
  (forall now key v, exists c', Add now key v c = (Returns tt, c')) /\
  (forall key,
     Get key c = (Returns (nil_bytes, false), c) \/
     exists v, Get key c = (Returns (v, true), c)).
Proof.
  intros c.
  assert (Hc : usable c) by apply run_calls_usable, usable_NewCache.
  pose proof Hc as (g & Hmu & Hg)%usable_entries.
  split.
  - intros now key v. rewrite (Add_run now key v c g) by done. by eexists.
  - intros key. rewrite Get_run by done.
    destruct (lookup_entry key c) as [e|]; [right; by exists (val e) | by left].
Qed.

(** C10 ([Get] is a pure read): [Get] leaves the cache it is called on as it
    was, map, entries, interval and mutex, on a hit and on a miss; and on a
    cache that is not locked it does return. *)
Theorem Get_pure_read (key : string) (c : Cache) :
  snd (Get key c) = c /\
  (mu c = Unlocked -> exists r, Get key c = (Returns r, c)).
Proof.
  split.
  - destruct (mu c) eqn:Hmu.
    + by rewrite Get_run.
    + by rewrite Get_blocked.
  - intros Hmu. rewrite Get_run by done. by eexists.
Qed.

Lemma Get_pure_read_witness :
  snd (Get "a" sweep_example) = sweep_example /\
  snd (Get "z" sweep_example) = sweep_example /\
  exists r, Get "a" sweep_example = (Returns r, sweep_example).
Proof.
  split; [apply (Get_pure_read "a" sweep_example)|].
  split; [apply (Get_pure_read "z" sweep_example)|].
  apply (Get_pure_read "a" sweep_example). reflexivity.
Defined.

(** ** Goroutines: the invariant *)

Lemma cache_ext (c1 c2 : Cache) :
  mu c1 = mu c2 ->
  interval c1 = interval c2 ->
  (entries c1 = None <-> entries c2 = None) ->
  (forall k, lookup_entry k c1 = lookup_entry k c2) ->
  c1 = c2.
Proof.
  destruct c1 as [m1 [g1|] i1], c2 as [m2 [g2|] i2]; unfold lookup_entry; cbn;
    intros -> -> Hnil Hl.
  - do 2 f_equal. by apply map_eq.
  - destruct Hnil as [_ Hnil]. by specialize (Hnil eq_refl).
  - destruct Hnil as [Hnil _]. by specialize (Hnil eq_refl).
  - done.
Qed.

(** The loop of [reap] does not depend on the order in which [range] hands
    out the keys. *)
Lemma reap_range_perm (now : Time) (keys keys' : list string) (c : Cache) :
  keys ≡ₚ keys' -> reap_range now keys c = reap_range now keys' c.
Proof.
  intros Hperm.
  destruct (reap_range_run now keys c) as (c1 & -> & Hmu1 & Hi1 & Hnil1 & Hl1).
  destruct (reap_range_run now keys' c) as (c2 & -> & Hmu2 & Hi2 & Hnil2 & Hl2).
  f_equal. apply cache_ext; [congruence | congruence | tauto |].
  intros k. rewrite Hl1, Hl2.
  destruct (lookup_entry k c); [|done].
  by rewrite (bool_decide_ext (k ∈ keys) (k ∈ keys')) by by rewrite Hperm.
Qed.

Lemma reap_range_app (now : Time) (keys1 keys2 : list string) (c c1 : Cache) :
  reap_range now keys1 c = (Returns tt, c1) ->
  reap_range now (keys1 ++ keys2) c = reap_range now keys2 c1.
Proof.
  revert c. induction keys1 as [|key rest IH]; intros c; cbn.
  - unfold ret. by intros [= ->].
  - unfold bind. destruct (reap_visit_run now key c) as (c' & -> & _).
    apply IH.
Qed.

Lemma run_calls_snoc (ops : list call) (op : call) (c : Cache) :
  run_calls (ops ++ [op]) c = snd (run_call op (run_calls ops c)).
Proof. unfold run_calls. by rewrite foldl_app. Qed.

Lemma set_mu_Unlocked_Locked (c : Cache) :
  mu c = Unlocked -> set_mu Unlocked (set_mu Locked c) = c.
Proof. destruct c; cbn. by intros ->. Qed.

Lemma Lock_returns (c c' : Cache) :
  Lock c = (Returns tt, c') -> mu c = Unlocked /\ c' = set_mu Locked c.
Proof. unfold Lock. destruct (mu c); by intros [= <-]. Qed.

Lemma Unlock_Locked (c : Cache) :
  mu c = Locked -> Unlock c = (Returns tt, set_mu Unlocked c).
Proof. unfold Unlock. by intros ->. Qed.

Lemma waiting_not_inside (p : pc) : waiting p = true -> inside p = false.
Proof. by destruct p. Qed.

Lemma waiting_not_at_unlock (p : pc) : waiting p = true -> at_unlock p = false.
Proof. by destruct p. Qed.

Lemma cs_inv_inside (q : Cache) (p : pc) (c : Cache) :
  cs_inv q p c -> inside p = true /\ mu c = Locked.
Proof.
  destruct p; cbn; try done.
  - by intros ->.
  - by intros ->.
  - by intros (_ & ? & _).
  - by intros ->.
  - by intros [-> _].
  - by intros ->.
  - intros (visited & _ & Hrun).
    destruct (reap_range_run now visited (set_mu Locked q))
      as (c' & Hrun' & Hmu & _).
    rewrite Hrun in Hrun'. by inversion Hrun'; subst.
  - by intros [? _].
Qed.

Section Invariant.

(** The interval the shared cache was built with. *)
Variable ttl : Duration.

Lemma Inv_init (n : nat) : Inv ttl (init ttl n).
Proof.
  exists []. left. split; [done|].
  intros i p Hp. cbn in Hp. by apply lookup_replicate in Hp as [-> _].
Qed.

Lemma all_waiting_insert (l : list pc) (i : nat) (p' : pc) :
  (forall j p, l !! j = Some p -> waiting p = true) ->
  waiting p' = true ->
  forall j p, <[i := p']> l !! j = Some p -> waiting p = true.
Proof.
  intros Hall Hp' j p [(-> & -> & _) | (_ & Hj)]%list_lookup_insert_Some; eauto.
Qed.

Lemma others_waiting_insert (l : list pc) (h i : nat) (p' : pc) :
  (forall j p, j <> h -> l !! j = Some p -> waiting p = true) ->
  (i <> h -> waiting p' = true) ->
  forall j p, j <> h -> <[i := p']> l !! j = Some p -> waiting p = true.
Proof.
  intros Hall Hp' j p Hne [(-> & -> & _) | (_ & Hj)]%list_lookup_insert_Some; eauto.
Qed.

Lemma lookup_insert_holder (l : list pc) (i : nat) (p p' : pc) :
  l !! i = Some p -> <[i := p']> l !! i = Some p'.
Proof. intros Hp. apply list_lookup_insert_eq. by eapply lookup_lt_Some. Qed.

Lemma Get_Index_answer (key : string) (q : Cache) (entry : cacheEntry) (ok : bool)
    (c' : Cache) :
  mu q = Unlocked ->
  index_entry key (set_mu Locked q) = (Returns (entry, ok), c') ->
  c' = set_mu Locked q /\
  Get key q = (Returns (if negb ok then (nil_bytes, false) else (val entry, true)), q).
Proof.
  intros Hmu. unfold index_entry. intros [= Hidx <-]. split; [done|].
  rewrite Get_run by done. f_equal.
  unfold map_index, lookup_entry in *. cbn in Hidx.
  destruct (entries q) as [g|]; [destruct (g !! key)|]; by inversion Hidx.
Qed.

Lemma reap_from_range (now : Time) (q c : Cache) (visited : list string) :
  mu q = Unlocked ->
  visited ≡ₚ map_keys (entries q) ->
  reap_range now visited (set_mu Locked q) = (Returns tt, c) ->
  mu c = Locked /\ reap now q = (Returns tt, set_mu Unlocked c).
Proof.
  intros Hmu Hperm Hrun.
  destruct (reap_range_run now visited (set_mu Locked q)) as (c1 & Hrun1 & Hmu1 & _).
  assert (c1 = c) as -> by congruence. cbn in Hmu1. split; [done|].
  unfold reap, bind, defer, Lock. rewrite Hmu.
  rewrite <- (reap_range_perm now visited) by done.
  rewrite Hrun. by rewrite Unlock_Locked.
Qed.

(** The goroutine [h] stays in its critical section and the calls completed
    so far are still [ops]. *)
Ltac still_inside ops h :=
  exists ops; cbv zeta;
  match goal with Eq : _ = run_calls ops _ |- _ => rewrite <- Eq end;
  right; exists h; eexists; split; [done|]; split; [|done].

(** The goroutine [h] has left its method: every goroutine waits again. *)
Ltac all_wait_again h Hme :=
  let j := fresh "j" in
  let pj := fresh "pj" in
  let Hj := fresh "Hj" in
  intros j pj Hj; destruct (decide (j = h)) as [->|]; [|by eauto];
  rewrite Hme in Hj; by injection Hj as <-.

Lemma Inv_step (cfg cfg' : config) :
  Inv ttl cfg -> step cfg cfg' -> Inv ttl cfg'.
Proof.
  intros (ops & Hinv) (i & p & p' & Hp & Hstep & Hpool).
  cbv zeta in Hinv. remember (run_calls ops (NewCache ttl)) as q eqn:Eq.
  assert (Hq : usable q) by (subst q; apply run_calls_usable, usable_NewCache).
  pose proof Hq as (g & Hmuq & Hgq)%usable_entries.
  destruct Hinv as [[Hshared Hwait] | (h & ph & Hph & Hcs & Hothers)].
  - (* the mutex is free *)
    pose proof (Hwait i p Hp) as Hw. rewrite Hshared in Hstep.
    inversion Hstep; subst p p'; try discriminate Hw;
      try (match goal with H : Lock _ = _ |- _ =>
             apply Lock_returns in H as [_ Hc'] end).
    1-3: exists ops; cbv zeta; rewrite <- Eq; left; (split; [congruence|]);
         rewrite Hpool; by apply all_waiting_insert.
    1-3: exists ops; cbv zeta; rewrite <- Eq; right; exists i; eexists;
         (split; [rewrite Hpool; by eapply lookup_insert_holder|]);
         (split; [cbn; congruence|]);
         rewrite Hpool; apply others_waiting_insert; [|done];
         intros j pj _ Hj; by eapply Hwait.
    match goal with Hat : at_unlock _ = true |- _ =>
      by rewrite waiting_not_at_unlock in Hat end.
  - (* goroutine h is in its critical section *)
    pose proof (cs_inv_inside _ _ _ Hcs) as [Hin Hlocked].
    destruct (decide (i = h)) as [->|Hne].
    + assert (p = ph) as -> by congruence.
      assert (Hkeep : forall j pj, j <> h -> pool cfg' !! j = Some pj -> waiting pj = true).
      { rewrite Hpool. apply others_waiting_insert; [done|]. congruence. }
      assert (Hme : pool cfg' !! h = Some p').
      { rewrite Hpool. by eapply lookup_insert_holder. }
      inversion Hstep; subst ph p'; try discriminate Hin; cbn in Hcs;
        repeat match goal with
               | Hx : ?x = shared cfg |- _ => subst x
               | Hx : ?x = shared cfg' |- _ => subst x
               end.
      * (* Add: time.Now() *)
        still_inside ops h. cbn. congruence.
      * (* Add: the assignment *)
        match goal with Ha : assign_entry _ _ _ = _ |- _ =>
          rewrite Hcs in Ha; unfold assign_entry in Ha; cbn in Ha;
          rewrite Hgq in Ha; cbn in Ha; injection Ha as Hc' end.
        still_inside ops h.
        cbn. rewrite <- Hc'. split; [done|]. split; [done|]. exists now, key, v.
        by rewrite (Add_run now key v q g).
      * (* Add: the assignment cannot panic *)
        match goal with Ha : assign_entry _ _ _ = _ |- _ =>
          rewrite Hcs in Ha; unfold assign_entry in Ha; cbn in Ha;
          rewrite Hgq in Ha; discriminate Ha end.
      * (* Get: the index *)
        match goal with Ha : index_entry _ _ = _ |- _ =>
          rewrite Hcs in Ha; apply Get_Index_answer in Ha as [Hc' HGet]; [|done] end.
        still_inside ops h. cbn. by split.
      * (* reap: the range starts *)
        still_inside ops h.
        cbn. exists []. cbn. split.
        -- match goal with Hk : _ ≡ₚ _ |- _ => by rewrite Hcs in Hk end.
        -- unfold ret. congruence.
      * (* reap: one turn *)
        destruct Hcs as (visited & Hperm & Hrun).
        still_inside ops h.
        cbn. exists (visited ++ [key]). split.
        { by rewrite <- app_assoc. }
        rewrite (reap_range_app _ _ _ _ _ Hrun). cbn. unfold bind.
        match goal with Hv : reap_visit _ _ _ = _ |- _ => by rewrite Hv end.
      * (* reap: the loop ends *)
        destruct Hcs as (visited & Hperm & Hrun). rewrite app_nil_r in Hperm.
        still_inside ops h.
        cbn.
        match goal with Hs : shared cfg = shared cfg' |- _ => rewrite <- Hs end.
        destruct (reap_from_range now q (shared cfg) visited) as [? ?]; [done..|].
        split; [done|]. by exists now.
      * (* the deferred Unlock *)
        match goal with Hu : Unlock _ = _ |- _ =>
          rewrite Unlock_Locked in Hu by done; injection Hu as <- Hc' end.
        cbn in Hme.
        destruct p; try discriminate; cbn in Hcs.
        -- destruct Hcs as (-> & _ & now & key & v & HAdd).
           exists (ops ++ [CallAdd now key v]). cbv zeta. left.
           rewrite run_calls_snoc. cbn.
           rewrite <- Eq, HAdd. split; [done|].
           all_wait_again h Hme.
        -- destruct Hcs as [Hc _].
           exists ops. cbv zeta. rewrite <- Eq. left. split.
           { rewrite <- Hc', Hc. by apply set_mu_Unlocked_Locked. }
           all_wait_again h Hme.
        -- destruct Hcs as (_ & now & Hreap).
           exists (ops ++ [CallReap now]). cbv zeta. left.
           rewrite run_calls_snoc. cbn.
           rewrite <- Eq, Hreap. split; [done|].
           all_wait_again h Hme.
    + (* another goroutine steps: it can only call a method *)
      pose proof (Hothers i p Hne Hp) as Hw.
      inversion Hstep; subst p p'; try discriminate Hw;
        try (match goal with H : Lock _ = _ |- _ =>
               apply Lock_returns in H as [Hfree _]; congruence end).
      1-3: exists ops; cbv zeta; rewrite <- Eq; right; exists h, ph;
           (split; [rewrite Hpool; by rewrite list_lookup_insert_ne|]);
           (split; [congruence|]);
           rewrite Hpool; by apply others_waiting_insert.
      match goal with Hat : at_unlock _ = true |- _ =>
        by rewrite waiting_not_at_unlock in Hat end.
Qed.

Lemma Inv_reachable (n : nat) (cfg : config) :
  reachable ttl n cfg -> Inv ttl cfg.
Proof.
  induction 1 as [|cfg cfg' _ IH Hstep]; [apply Inv_init | by eapply Inv_step].
Qed.

Lemma Inv_not_inside_waiting (cfg : config) (i : nat) (p : pc) :
  Inv ttl cfg ->
  pool cfg !! i = Some p -> inside p = false -> waiting p = true.
Proof.
  intros (ops & [[_ Hwait] | (h & ph & Hph & Hcs & Hothers)]) Hp Hout.
  - by eapply Hwait.
  - destruct (decide (i = h)) as [->|Hne]; [|by eapply Hothers].
    assert (p = ph) as -> by congruence.
    apply cs_inv_inside in Hcs as [? _]. congruence.
Qed.



(** A goroutine inside a critical section always has a next step. *)
Lemma inside_can_step (cfg : config) (i : nat) (p : pc) :
  pool cfg !! i = Some p -> inside p = true ->
  exists cfg', step_of i cfg cfg'.
Proof.
  intros Hp Hin.
  assert (Hgo : forall p' c', gstep p (shared cfg) p' c' ->
            exists cfg', step_of i cfg cfg').
  { intros p' c' Hstep. exists {| shared := c'; pool := <[i := p']> (pool cfg) |}.
    by exists p, p'. }
  destruct p; try discriminate Hin.
  - eapply Hgo. apply (step_Add_Now key v 0).
  - destruct (assign_entry key {| createdAt := now; val := v |} (shared cfg))
      as [[[]|msg|] c'] eqn:Ha.
    + eapply Hgo. by apply step_Add_Assign.
    + eapply Hgo. by eapply step_Add_Assign_panic.
    + unfold assign_entry in Ha. by destruct (map_assign _ _ _).
  - destruct (Unlock (shared cfg)) as [o c'] eqn:Hu.
    eapply Hgo. by eapply step_Unlock.
  - destruct (map_index (entries (shared cfg)) key) as [entry ok] eqn:Hidx.
    eapply Hgo. apply (step_Get_Index key _ entry ok).
    unfold index_entry. by rewrite Hidx.
  - destruct (Unlock (shared cfg)) as [o c'] eqn:Hu.
    eapply Hgo. by eapply step_Unlock.
  - eapply Hgo. by apply (step_Reap_Now 0 (map_keys (entries (shared cfg)))).
  - destruct remaining as [|key rest].
    + eapply Hgo. apply step_Reap_Range_end.
    + destruct (reap_visit_run now key (shared cfg)) as (c' & Hv & _).
      eapply Hgo. by eapply step_Reap_Range.
  - destruct (Unlock (shared cfg)) as [o c'] eqn:Hu.
    eapply Hgo. by eapply step_Unlock.
Qed.



End Invariant.

(** ** Goroutines: serialization along the history *)











Section Serialization.

(** The cache the goroutines share at first, and their number. *)
Variable c0 : Cache.
Variable n : nat.
Hypothesis c0_unlocked : mu c0 = Unlocked.




End Serialization.

Section Serialized.

Variable c0 : Cache.
Variable n : nat.
Hypothesis c0_unlocked : mu c0 = Unlocked.




End Serialized.



(** ** More on the cache *)

Lemma run_call_interval (op : call) (c : Cache) :
  interval (snd (run_call op c)) = interval c.
Proof.
  destruct op as [now key v|key|now]; cbn.
  - unfold Add, bind, defer, Lock, Unlock, assign_entry.
    destruct (mu c); cbn; [|done]. by destruct (map_assign (entries c) key _).
  - destruct (mu c) eqn:Hmu; [by rewrite Get_run | by rewrite Get_blocked].
  - destruct (mu c) eqn:Hmu.
    + by destruct (reap_run now c Hmu) as (c' & -> & _ & ? & _).
    + unfold reap, bind, Lock. by rewrite Hmu.
Qed.

Lemma run_calls_interval (ops : list call) (c : Cache) :
  interval (run_calls ops c) = interval c.
Proof.
  revert c. induction ops as [|op ops IH]; intros c; [done|].
  cbn. fold (run_calls ops (snd (run_call op c))).
  by rewrite IH, run_call_interval.
Qed.

(** X1 (the interval is fixed): whatever the cache and whatever the calls,
    also calls that block or panic, the interval after them is the interval
    before them. *)
Theorem interval_never_changes (ops : list call) (c : Cache) :
  interval (run_calls ops c) = interval c.
Proof. apply run_calls_interval. Qed.

(** What one call does to the entry under [key]. *)
Lemma run_call_lookup (op : call) (c : Cache) (key : string) :
  usable c ->
  lookup_entry key (snd (run_call op c)) =
    match op with
    | CallAdd now k v =>
        if bool_decide (k = key) then Some {| createdAt := now; val := v |}
        else lookup_entry key c
    | CallGet _ => lookup_entry key c
    | CallReap now =>
        match lookup_entry key c with
        | Some e => if expired now (interval c) e then None else Some e
        | None => None
        end
    end.
Proof.
  intros Hc. pose proof Hc as (g & Hmu & Hg)%usable_entries.
  destruct op as [now k v|k|now]; cbn.
  - rewrite (Add_run now k v c g) by done. unfold lookup_entry. cbn. rewrite Hg.
    case_bool_decide as Hk.
    + subst k. by rewrite lookup_insert_eq.
    + by rewrite lookup_insert_ne.
  - by rewrite Get_run.
  - by destruct (reap_run now c Hmu) as (c' & -> & _ & _ & _ & ->).
Qed.

Lemma run_call_usable' (op : call) (c : Cache) :
  usable c -> usable (snd (run_call op c)).
Proof. intros Hc. by destruct (run_call_usable op c Hc) as (c' & -> & ?). Qed.

Lemma run_calls_lookup_no_Add (ops : list call) (c : Cache) (key : string) :
  usable c ->
  adds_key key ops = false ->
  lookup_entry key (run_calls ops c) =
    match lookup_entry key c with
    | Some e => if swept (reap_times ops) (interval c) e then None else Some e
    | None => None
    end.
Proof.
  revert c. induction ops as [|op ops IH]; intros c Hc Hadds.
  - cbn. by destruct (lookup_entry key c).
  - cbn in Hadds. apply orb_false_iff in Hadds as [Hop Hadds].
    cbn. fold (run_calls ops (snd (run_call op c))).
    rewrite IH by (try apply run_call_usable'; done).
    rewrite run_call_interval, run_call_lookup by done.
    destruct op as [now k v|k|now]; cbn.
    + by rewrite Hop.
    + done.
    + destruct (lookup_entry key c) as [e|]; [|done].
      unfold swept. cbn. by destruct (expired now (interval c) e).
Qed.

(** X2 (only [Add] writes): along any sequence of calls without an [Add] on
    [key], the entry under [key] is never created or changed; it is the
    entry that was there at the start, as long as no [reap] of the sequence
    found it expired, and absent from then on. *)
Theorem entry_without_Add (ops : list call) (c : Cache) (key : string) :
  usable c ->
  adds_key key ops = false ->
  lookup_entry key (run_calls ops c) =
    match lookup_entry key c with
    | Some e => if swept (reap_times ops) (interval c) e then None else Some e
    | None => None
    end.
Proof. apply run_calls_lookup_no_Add. Qed.

Lemma entry_without_Add_witness :
  lookup_entry "c" (run_calls [CallGet "c"; CallAdd 70 "e" None; CallReap 100]
                              sweep_example)
    = Some {| createdAt := 50; val := Some [] |} /\
  lookup_entry "a" (run_calls [CallReap 100; CallGet "a"; CallReap 20]
                              sweep_example) = None.
Proof.
  split.
  - rewrite (entry_without_Add _ sweep_example "c");
      [reflexivity | split; [reflexivity | discriminate] | reflexivity].
  - rewrite (entry_without_Add _ sweep_example "a");
      [reflexivity | split; [reflexivity | discriminate] | reflexivity].
Defined.

Lemma adds_key_app (key : string) (ops1 ops2 : list call) :
  adds_key key (ops1 ++ ops2) = adds_key key ops1 || adds_key key ops2.
Proof. unfold adds_key. apply existsb_app. Qed.

Lemma reap_times_app (ops1 ops2 : list call) :
  reap_times (ops1 ++ ops2) = reap_times ops1 ++ reap_times ops2.
Proof. unfold reap_times. apply omap_app. Qed.

(** X3 (an entry that is not refreshed goes with the first late sweep):
    after [Add key v] at clock reading [t0], if the calls that follow contain
    no further [Add] on [key] and contain a [reap] taken at a clock reading
    more than the interval after [t0], then [Get key] misses, whatever else
    was called in between and afterwards. *)
Theorem unrefreshed_entry_is_swept (c : Cache) (key : string) (v : bytes)
    (t0 now : Time) (ops1 ops2 : list call) :
  usable c ->
  clock_reading t0 -> clock_reading now ->
  interval c < now - t0 ->
  adds_key key ops1 = false -> adds_key key ops2 = false ->
  let c' := run_calls (CallAdd t0 key v :: ops1 ++ CallReap now :: ops2) c in
  Get key c' = (Returns (nil_bytes, false), c').
Proof.
  intros Hc Ht0 Hnow Hlate Hops1 Hops2 c'.
  assert (Hc' : usable c') by by apply run_calls_usable.
  rewrite Get_run by apply Hc'.
  subst c'. cbn. fold (run_calls (ops1 ++ CallReap now :: ops2)
                         (snd (Add t0 key v c))).
  pose proof (run_call_usable' (CallAdd t0 key v) c Hc) as Hc1.
  pose proof (run_call_lookup (CallAdd t0 key v) c key Hc) as Hl1.
  pose proof (run_call_interval (CallAdd t0 key v) c) as Hi1.
  cbn in Hc1, Hl1, Hi1. rewrite bool_decide_eq_true_2 in Hl1 by done.
  rewrite run_calls_lookup_no_Add; [|done|].
  - rewrite Hl1, Hi1. unfold swept.
    rewrite reap_times_app, existsb_app. cbn.
    assert (expired now (interval c) {| createdAt := t0; val := v |} = true) as ->.
    { unfold expired, age. cbn. rewrite Sub_clock_readings by done.
      by apply Z.ltb_lt. }
    by rewrite orb_true_r.
  - rewrite adds_key_app, Hops1. exact Hops2.
Qed.

Lemma unrefreshed_entry_is_swept_witness :
  let c' := run_calls (CallAdd 10 "k" (Some [x01])
                         :: [CallGet "k"] ++ CallReap 400 :: [CallAdd 401 "j" None])
                      (NewCache 300) in
  Get "k" c' = (Returns (nil_bytes, false), c').
Proof.
  apply (unrefreshed_entry_is_swept (NewCache 300) "k" (Some [x01]) 10 400).
  - split; [reflexivity | discriminate].
  - unfold clock_reading, maxDuration. lia.
  - unfold clock_reading, maxDuration. lia.
  - cbn. lia.
  - reflexivity.
  - reflexivity.
Defined.

(** The sweeps of [reapLoop], one after the other. *)
Lemma reapLoop_range_run (nows : list Time) (c : Cache) :
  mu c = Unlocked ->
  exists c',
    reapLoop_range nows c = (Returns tt, c') /\
    mu c' = Unlocked /\ interval c' = interval c /\
    (entries c = None <-> entries c' = None) /\
    forall k, lookup_entry k c' =
      match lookup_entry k c with
      | Some e => if swept nows (interval c) e then None else Some e
      | None => None
      end.
Proof.
  revert c. induction nows as [|now rest IH]; intros c Hmu.
  - exists c. cbn. repeat split; try done.
    intros k. by destruct (lookup_entry k c).
  - destruct (reap_run now c Hmu) as (c1 & Hrun1 & Hmu1 & Hi1 & Hnil1 & Hl1).
    destruct (IH c1 Hmu1) as (c2 & Hrun2 & Hmu2 & Hi2 & Hnil2 & Hl2).
    exists c2. cbn. unfold bind. rewrite Hrun1, Hrun2.
    split; [done|]. split; [done|]. split; [congruence|]. split; [tauto|].
    intros k. rewrite Hl2, Hl1, Hi1. unfold swept. cbn.
    destruct (lookup_entry k c) as [e|]; [|done].
    by destruct (expired now (interval c) e).
Qed.

(** X4 (the sweeper needs a positive interval): on a cache whose interval is
    zero or negative [reapLoop] panics in [time.NewTicker] before its first
    sweep, and leaves the cache as it found it: nothing is ever swept. *)
Theorem reapLoop_nonpositive_interval (nows : list Time) (c : Cache) :
  interval c <= 0 ->
  reapLoop nows c = (Panics "non-positive interval for NewTicker", c).
Proof.
  intros Hi. unfold reapLoop, bind, NewTicker.
  by destruct (Z.ltb_spec 0 (interval c)); [lia|].
Qed.

Lemma reapLoop_nonpositive_interval_witness :
  reapLoop [1; 2; 3] (NewCache 0)
    = (Panics "non-positive interval for NewTicker", NewCache 0).
Proof. apply (reapLoop_nonpositive_interval [1; 2; 3] (NewCache 0)). cbn. lia. Defined.

(** X5 (what the sweeper leaves): on a cache with a positive interval that is
    not locked, [reapLoop] runs one [reap] per tick; after the sweeps at
    [nows] a key holds an entry exactly when it held one that none of these
    sweeps found expired, and that entry is unchanged. *)
Theorem reapLoop_sweeps (nows : list Time) (c : Cache) :
  0 < interval c ->
  mu c = Unlocked ->
  exists c',
    reapLoop nows c = (Returns tt, c') /\
    interval c' = interval c /\
    forall k, lookup_entry k c' =
      match lookup_entry k c with
      | Some e => if swept nows (interval c) e then None else Some e
      | None => None
      end.
Proof.
  intros Hi Hmu.
  destruct (reapLoop_range_run nows c Hmu) as (c' & Hrun & _ & Hi' & _ & Hl).
  exists c'. split; [|done].
  unfold reapLoop, bind, NewTicker, defer, ticker_Stop, ret.
  destruct (Z.ltb_spec 0 (interval c)); [|lia]. by rewrite Hrun.
Qed.

Lemma reapLoop_sweeps_witness :
  exists c',
    reapLoop [50; 100] sweep_example = (Returns tt, c') /\
    lookup_entry "a" c' = None /\
    lookup_entry "b" c' = None /\
    lookup_entry "c" c' = Some {| createdAt := 50; val := Some [] |}.
Proof.
  destruct (reapLoop_sweeps [50; 100] sweep_example) as (c' & Hrun & _ & Hl).
  - cbn. lia.
  - reflexivity.
  - exists c'. split; [exact Hrun|]. rewrite !Hl. vm_compute. repeat split.
Defined.

(** X6 (a sweep is idempotent): a second [reap] taking the same clock
    reading as the first removes nothing and leaves the cache as the first
    left it. *)
Theorem reap_idempotent (now : Time) (c : Cache) :
  mu c = Unlocked ->
  exists c1,
    reap now c = (Returns tt, c1) /\
    reap now c1 = (Returns tt, c1).
Proof.
  intros Hmu.
  destruct (reap_run now c Hmu) as (c1 & Hrun1 & Hmu1 & Hi1 & Hnil1 & Hl1).
  destruct (reap_run now c1 Hmu1) as (c2 & Hrun2 & Hmu2 & Hi2 & Hnil2 & Hl2).
  exists c1. split; [done|]. rewrite Hrun2. f_equal.
  apply cache_ext; [congruence | done | tauto |].
  intros k. rewrite Hl2, Hl1, Hi1.
  destruct (lookup_entry k c) as [e|]; [|done].
  destruct (expired now (interval c) e) eqn:Hexp; [done|]. by rewrite Hexp.
Qed.

Lemma reap_idempotent_witness :
  exists c1,
    reap 100 sweep_example = (Returns tt, c1) /\
    reap 100 c1 = (Returns tt, c1).
Proof. apply (reap_idempotent 100 sweep_example). reflexivity. Defined.

Lemma expired_later (now1 now2 : Time) (ttl : Duration) (e : cacheEntry) :
  clock_reading now1 -> clock_reading now2 -> clock_reading (createdAt e) ->
  now1 <= now2 ->
  expired now1 ttl e = true -> expired now2 ttl e = true.
Proof.
  unfold expired, age. intros H1 H2 He Hle.
  rewrite !Sub_clock_readings by done. rewrite !Z.ltb_lt. lia.
Qed.

(** X7 (a later sweep subsumes an earlier one): when the entries carry clock
    readings and [now1 <= now2], sweeping at [now1] and then at [now2] leaves
    the cache that the sweep at [now2] alone leaves. *)
Theorem reap_later_subsumes (now1 now2 : Time) (c : Cache) :
  mu c = Unlocked ->
  stamped c ->
  clock_reading now1 -> clock_reading now2 ->
  now1 <= now2 ->
  exists c1 c2,
    reap now1 c = (Returns tt, c1) /\
    reap now2 c1 = (Returns tt, c2) /\
    reap now2 c = (Returns tt, c2).
Proof.
  intros Hmu Hst H1 H2 Hle.
  destruct (reap_run now1 c Hmu) as (c1 & Hrun1 & Hmu1 & Hi1 & Hnil1 & Hl1).
  destruct (reap_run now2 c1 Hmu1) as (c2 & Hrun2 & Hmu2 & Hi2 & Hnil2 & Hl2).
  destruct (reap_run now2 c Hmu) as (c3 & Hrun3 & Hmu3 & Hi3 & Hnil3 & Hl3).
  exists c1, c2. split; [done|]. split; [done|]. rewrite Hrun3. f_equal.
  apply cache_ext; [congruence | congruence | tauto |].
  intros k. rewrite Hl3, Hl2, Hl1, Hi1.
  destruct (lookup_entry k c) as [e|] eqn:He; [|done].
  destruct (expired now1 (interval c) e) eqn:Hexp1.
  - by rewrite (expired_later now1 now2 _ e) by eauto.
  - done.
Qed.

Lemma reap_later_subsumes_witness :
  exists c1 c2,
    reap 95 sweep_example = (Returns tt, c1) /\
    reap 100 c1 = (Returns tt, c2) /\
    reap 100 sweep_example = (Returns tt, c2).
Proof.
  apply (reap_later_subsumes 95 100 sweep_example).
  - reflexivity.
  - intros k e. unfold lookup_entry, sweep_example. cbn.
    intros He.
    repeat match type of He with
    | <[?i := _]> _ !! _ = _ =>
        apply lookup_insert_Some in He as [[_ <-] | [_ He]];
        [unfold clock_reading, maxDuration; cbn; lia|]
    end.
    by rewrite lookup_empty in He.
  - unfold clock_reading, maxDuration. lia.
  - unfold clock_reading, maxDuration. lia.
  - lia.
Defined.

(** X8 ([Add] on different keys commutes): two [Add]s on different keys leave
    the same cache in either order. *)
Theorem Add_commutes (c : Cache) (now1 now2 : Time) (key1 key2 : string)
    (v1 v2 : bytes) :
  usable c ->
  key1 <> key2 ->
  exists c1 c1' c2,
    Add now1 key1 v1 c = (Returns tt, c1) /\
    Add now2 key2 v2 c1 = (Returns tt, c2) /\
    Add now2 key2 v2 c = (Returns tt, c1') /\
    Add now1 key1 v1 c1' = (Returns tt, c2).
Proof.
  intros (g & Hmu & Hg)%usable_entries Hne.
  eexists _, _, _. split; [by apply Add_run|].
  split; [by apply Add_run|]. split; [by apply Add_run|].
  erewrite Add_run by done. cbn.
  by rewrite insert_insert_ne.
Qed.

Lemma Add_commutes_witness :
  exists c1 c1' c2,
    Add 1 "a" (Some [x01]) (NewCache 300) = (Returns tt, c1) /\
    Add 2 "b" None c1 = (Returns tt, c2) /\
    Add 2 "b" None (NewCache 300) = (Returns tt, c1') /\
    Add 1 "a" (Some [x01]) c1' = (Returns tt, c2).
Proof.
  apply (Add_commutes (NewCache 300) 1 2 "a" "b").
  - split; [reflexivity | discriminate].
  - discriminate.
Defined.

(** X9 (a cache that [NewCache] did not build): on a [Cache] whose map was
    never allocated, such as the zero value, [Get] misses on every key and
    [reap] does nothing, but [Add] panics on the assignment to the nil map;
    the deferred [Unlock] still runs, and the cache is left as it was. *)
Theorem nil_map_cache (c : Cache) :
  mu c = Unlocked ->
  entries c = None ->
  (forall key, Get key c = (Returns (nil_bytes, false), c)) /\
  (forall now, reap now c = (Returns tt, c)) /\
  (forall now key v,
     Add now key v c = (Panics "assignment to entry in nil map", c)).
Proof.
  intros Hmu Hnil. split; [|split].
  - intros key. rewrite Get_run by done. unfold lookup_entry. by rewrite Hnil.
  - intros now.
    destruct (reap_run now c Hmu) as (c' & -> & Hmu' & Hi' & Hnil' & Hl').
    f_equal. apply cache_ext; [congruence | done | tauto |].
    intros k. rewrite Hl'. unfold lookup_entry. by rewrite Hnil.
  - intros now key v. unfold Add, bind, defer, Lock, Unlock, assign_entry.
    rewrite Hmu. cbn. rewrite Hnil. cbn. destruct c; cbn in *. by subst.
Qed.

Lemma nil_map_cache_witness :
  (forall key, Get key zeroCache = (Returns (nil_bytes, false), zeroCache)) /\
  (forall now, reap now zeroCache = (Returns tt, zeroCache)) /\
  (forall now key v,
     Add now key v zeroCache = (Panics "assignment to entry in nil map", zeroCache)).
Proof. apply (nil_map_cache zeroCache); reflexivity. Defined.

(** X10 (no goroutine waits in vain): in every reachable configuration each
    goroutine can either take a step itself, or it waits at a [Lock] while
    another goroutine is in its critical section and can take a step. *)
Theorem no_goroutine_waits_in_vain (ttl : Duration) (n : nat) (cfg : config)
    (i : nat) (p : pc) :
  reachable ttl n cfg ->
  pool cfg !! i = Some p ->
  (exists cfg', step_of i cfg cfg') \/
  (exists h ph cfg',
     h <> i /\ pool cfg !! h = Some ph /\ inside ph = true /\
     step_of h cfg cfg').
Proof.
  intros HInv%Inv_reachable Hp.
  destruct (inside p) eqn:Hin.
  { left. by eapply inside_can_step. }
  pose proof (Inv_not_inside_waiting _ _ _ _ HInv Hp Hin) as Hw.
  assert (Hgo : forall p' c', gstep p (shared cfg) p' c' ->
            exists cfg', step_of i cfg cfg').
  { intros p' c' Hstep. exists {| shared := c'; pool := <[i := p']> (pool cfg) |}.
    by exists p, p'. }
  destruct (mu (shared cfg)) eqn:Hmu.
  - left. destruct p; try discriminate Hw.
    + eapply Hgo. apply (step_call_Get "").
    + eapply Hgo. apply step_Add_Lock. unfold Lock. by rewrite Hmu.
    + eapply Hgo. apply step_Get_Lock. unfold Lock. by rewrite Hmu.
    + eapply Hgo. apply step_Reap_Lock. unfold Lock. by rewrite Hmu.
  - destruct HInv as (ops & [[Hshared _] | (h & ph & Hph & Hcs & _)]).
    + pose proof (run_calls_usable ops _ (usable_NewCache ttl)) as [Hfree _].
      congruence.
    + apply cs_inv_inside in Hcs as [Hinh _].
      right. destruct (inside_can_step cfg h ph Hph Hinh) as [cfg' Hstep].
      exists h, ph, cfg'. split; [|done]. intros ->. congruence.
Qed.

Lemma no_goroutine_waits_in_vain_witness :
  (exists cfg', step_of 1 contended cfg') \/
  (exists h ph cfg',
     h <> 1%nat /\ pool contended !! h = Some ph /\ inside ph = true /\
     step_of h contended cfg').
Proof.
  apply (no_goroutine_waits_in_vain 300 2 contended 1 (Get_Lock "a")); [|reflexivity].
  eapply (reachable_step _ _
            {| shared := NewCache 300;
               pool := [Add_Lock "a" (Some [x01]); Get_Lock "a"] |}).
  - eapply (reachable_step _ _
              {| shared := NewCache 300;
                 pool := [Add_Lock "a" (Some [x01]); Idle] |}).
    + eapply (reachable_step _ _ (init 300 2)); [apply reachable_init|].
      exists 0%nat, Idle, (Add_Lock "a" (Some [x01])).
      split; [reflexivity|]. split; [apply step_call_Add | reflexivity].
    + exists 1%nat, Idle, (Get_Lock "a").
      split; [reflexivity|]. split; [apply step_call_Get | reflexivity].
  - exists 0%nat, (Add_Lock "a" (Some [x01])), (Add_Now "a" (Some [x01])).
    split; [reflexivity|]. split; [by apply step_Add_Lock | reflexivity].
Defined.

(** ** Package main: what the commands do *)

Module MainProofs.
Import Main.
Local Open Scope main_scope.

Lemma set_Cache_same (cfg : config) : set_Cache (Cache cfg) cfg = cfg.
Proof. by destruct cfg. Qed.

Lemma on_Cache_Get (url : string) (cfg : config) :
  usable (Cache cfg) ->
  on_Cache (Get url) cfg =
    (Done match lookup_entry url (Cache cfg) with
          | Some e => (val e, true)
          | None => (nil_bytes, false)
          end, cfg, []).
Proof.
  intros [Hmu _]. unfold on_Cache. rewrite Get_run by done.
  by rewrite set_Cache_same.
Qed.

Lemma on_Cache_Add (now : Time) (url : string) (v : bytes) (cfg : config) :
  usable (Cache cfg) ->
  exists c',
    on_Cache (Add now url v) cfg = (Done tt, set_Cache c' cfg, []) /\
    usable c' /\
    interval c' = interval (Cache cfg) /\
    lookup_entry url c' = Some {| createdAt := now; val := v |} /\
    forall k, k <> url -> lookup_entry k c' = lookup_entry k (Cache cfg).
Proof.
  intros (g & Hmu & Hg)%usable_entries.
  eexists. unfold on_Cache. rewrite (Add_run now url v _ g) by done.
  split; [reflexivity|]. split; [by split|]. split; [done|].
  unfold lookup_entry. cbn. rewrite Hg. split.
  - by rewrite lookup_insert_eq.
  - intros k Hk. by rewrite lookup_insert_ne.
Qed.

Lemma bind_emit {B} (e : event) (k : unit -> run B) (cfg : config) :
  bind (emit e) k cfg = let '(r, cfg', t) := k tt cfg in (r, cfg', e :: t).
Proof. done. Qed.

Lemma bind_modify {B} (f : config -> config) (k : unit -> run B) (cfg : config) :
  bind (modify f) k cfg = k tt (f cfg).
Proof. unfold bind, modify. by destruct (k tt (f cfg)) as [[r cfg'] t]. Qed.

Lemma bind_ret {A B} (a : A) (k : A -> run B) (cfg : config) :
  bind (ret a) k cfg = k a cfg.
Proof. unfold bind, ret. by destruct (k a cfg) as [[r cfg'] t]. Qed.

Lemma bind_read {A B} (f : config -> A) (k : A -> run B) (cfg : config) :
  bind (read f) k cfg = k (f cfg) cfg.
Proof. unfold bind, read. by destruct (k (f cfg) cfg) as [[r cfg'] t]. Qed.

Lemma for_range_emit {B} (l : list B) (f : B -> event) (cfg : config) :
  for_range l (fun x => emit (f x)) cfg = (Done tt, cfg, f <$> l).
Proof.
  induction l as [|x l IH]; [done|].
  cbn [for_range]. by rewrite bind_emit, IH.
Qed.

Lemma for_range_append (l : list string) (cfg : config) :
  for_range l (fun x => modify (fun cfg => set_Current (Current cfg ++ [x]) cfg)) cfg
    = (Done tt, set_Current (Current cfg ++ l) cfg, []).
Proof.
  revert cfg. induction l as [|x l IH]; intros cfg.
  - cbn. unfold ret. rewrite app_nil_r. by destruct cfg.
  - cbn [for_range]. rewrite bind_modify, IH. cbn.
    by rewrite <- app_assoc.
Qed.

Section Facts.

Variable Unmarshal_locations : bytes -> error + locations.
Variable Unmarshal_encounters : bytes -> error + list string.
Variable Unmarshal_Pokemon : bytes -> error + Pokemon.

Local Abbreviation displayLocations := (displayLocations Unmarshal_locations).
Local Abbreviation displayPokemon := (displayPokemon Unmarshal_encounters).
Local Abbreviation attemptCatch := (attemptCatch Unmarshal_Pokemon).
Local Abbreviation fetchLocations := (fetchLocations Unmarshal_locations).
Local Abbreviation fetchLocationDetails := (fetchLocationDetails Unmarshal_encounters).
Local Abbreviation catchPokemon := (catchPokemon Unmarshal_Pokemon).

Lemma displayLocations_run (data : bytes) (cfg : config) :
  displayLocations data cfg =
    match Unmarshal_locations data with
    | inl err => (Done (Some err), cfg, [])
    | inr result =>
        (Done None,
         {| Next := result_Next result; Previous := result_Previous result;
            Current := Results result; Cache := Cache cfg; Caught := Caught cfg |},
         (fun location => Println [Str location]) <$> Results result)
    end.
Proof.
  unfold Main.displayLocations. destruct (Unmarshal_locations data) as [err|result]; [done|].
  rewrite !bind_modify. unfold bind at 1. rewrite for_range_append.
  rewrite bind_read. unfold bind. rewrite for_range_emit. cbn.
  by rewrite app_nil_r.
Qed.

Lemma displayPokemon_run (data : bytes) (cfg : config) :
  displayPokemon data cfg =
    match Unmarshal_encounters data with
    | inl err => (Done (Some err), cfg, [])
    | inr encounters =>
        (Done None, cfg,
         Println [Str "Found Pokemon:"]
           :: ((fun name => Printf (" - %s" +:+ nl) [Str name]) <$> encounters))
    end.
Proof.
  unfold Main.displayPokemon. destruct (Unmarshal_encounters data) as [err|encounters]; [done|].
  rewrite bind_emit. unfold bind. rewrite for_range_emit. cbn.
  by rewrite app_nil_r.
Qed.

Lemma attemptCatch_run (w : env) (data : bytes) (cfg : config) :
  attemptCatch w data cfg =
    match Unmarshal_Pokemon data with
    | inl err => (Done (Some err), cfg, [])
    | inr pokemon =>
        if env_Intn w <? 50 then
          (Done None, cfg,
           [Printf ("Throwing a Pokeball at %s..." +:+ nl) [Str (Name pokemon)];
            Printf ("%s escaped!" +:+ nl) [Str (Name pokemon)]])
        else
          match Caught cfg with
          | Some g =>
              (Done None, set_Caught (Some (<[Name pokemon := pokemon]> g)) cfg,
               [Printf ("Throwing a Pokeball at %s..." +:+ nl) [Str (Name pokemon)];
                Printf ("%s was caught!" +:+ nl) [Str (Name pokemon)]])
          | None =>
              (Panicked "assignment to entry in nil map", cfg,
               [Printf ("Throwing a Pokeball at %s..." +:+ nl) [Str (Name pokemon)];
                Printf ("%s was caught!" +:+ nl) [Str (Name pokemon)]])
          end
    end.
Proof.
  unfold Main.attemptCatch. destruct (Unmarshal_Pokemon data) as [err|pokemon]; [done|].
  destruct (env_Intn w <? 50); [done|].
  unfold bind, emit, assign_Caught. cbn. by destruct (Caught cfg).
Qed.

(** The three fetching functions share one shape: look the URL up and use
    the hit, or request it, read the body, add it to the cache and use it. *)
Lemma cache_aside_run (hit use : bytes -> run (option error)) (w : env)
    (url : string) (cfg : config) :
  usable (Cache cfg) ->
  (let* r := on_Cache (Get url) in
   let '(data, ok) := r in
   if ok then hit data
   else
     emit (Println [Str "Fetching new data"]) ;;
     emit (http_Get url) ;;
     match env_response w with
     | Get_fails err => ret (Some err)
     | Get_ok body =>
         defer (emit Body_Close)
           (emit ioutil_ReadAll ;;
            match body with
            | inl err => ret (Some err)
            | inr body =>
                on_Cache (Add (env_now w) url (Some body)) ;;
                use (Some body)
            end)
     end) cfg =
  match lookup_entry url (Cache cfg) with
  | Some e => hit (val e) cfg
  | None =>
      match env_response w with
      | Get_fails err =>
          (Done (Some err), cfg, [Println [Str "Fetching new data"]; http_Get url])
      | Get_ok (inl err) =>
          (Done (Some err), cfg,
           [Println [Str "Fetching new data"]; http_Get url; ioutil_ReadAll; Body_Close])
      | Get_ok (inr body) =>
          let added :=
            set_Cache (snd (Add (env_now w) url (Some body) (Cache cfg))) cfg in
          match use (Some body) added with
          | (Done r, cfg', t) =>
              (Done r, cfg',
               [Println [Str "Fetching new data"]; http_Get url; ioutil_ReadAll]
                 ++ t ++ [Body_Close])
          | (Panicked msg, cfg', t) =>
              (Panicked msg, cfg',
               [Println [Str "Fetching new data"]; http_Get url; ioutil_ReadAll]
                 ++ t ++ [Body_Close])
          | (Blocked, cfg', t) =>
              (Blocked, cfg',
               [Println [Str "Fetching new data"]; http_Get url; ioutil_ReadAll] ++ t)
          | (Exited code, cfg', t) =>
              (Exited code, cfg',
               [Println [Str "Fetching new data"]; http_Get url; ioutil_ReadAll] ++ t)
          end
      end
  end.
Proof.
  intros Hc. unfold bind at 1. rewrite on_Cache_Get by done.
  destruct (lookup_entry url (Cache cfg)) as [e|].
  { cbn. destruct (hit (val e) cfg) as [[r cfg'] t]. done. }
  cbn [negb]. rewrite !bind_emit.
  destruct (env_response w) as [err|[err|body]]; [done|done|].
  unfold defer. rewrite bind_emit. unfold bind.
  destruct (on_Cache_Add (env_now w) url (Some body) cfg Hc) as (c' & HAdd & _).
  pose proof HAdd as HAdd'. unfold on_Cache in HAdd'.
  destruct (Add (env_now w) url (Some body) (Cache cfg)) as [[[]|msg|] c''];
    try discriminate HAdd'.
  injection HAdd' as ->. rewrite HAdd. cbn [snd].
  destruct (use (Some body) (set_Cache c' cfg)) as [[[r|msg| |code] cfg'] t]; done.
Qed.

Lemma fetchLocations_run (w : env) (url : string) (cfg : config) :
  usable (Cache cfg) ->
  fetchLocations w url cfg =
  match lookup_entry url (Cache cfg) with
  | Some e => (emit (Println [Str "Using cached data"]) ;; displayLocations (val e)) cfg
  | None =>
      match env_response w with
      | Get_fails err =>
          (Done (Some err), cfg, [Println [Str "Fetching new data"]; http_Get url])
      | Get_ok (inl err) =>
          (Done (Some err), cfg,
           [Println [Str "Fetching new data"]; http_Get url; ioutil_ReadAll; Body_Close])
      | Get_ok (inr body) =>
          let added :=
            set_Cache (snd (Add (env_now w) url (Some body) (Cache cfg))) cfg in
          match displayLocations (Some body) added with
          | (r, cfg', t) =>
              (r, cfg',
               [Println [Str "Fetching new data"]; http_Get url; ioutil_ReadAll]
                 ++ t ++ [Body_Close])
          end
      end
  end.
Proof.
  intros Hc. unfold Main.fetchLocations.
  rewrite (cache_aside_run
             (fun data => emit (Println [Str "Using cached data"]) ;; displayLocations data)
             displayLocations) by done.
  destruct (lookup_entry url (Cache cfg)); [done|].
  destruct (env_response w) as [err|[err|body]]; [done..|].
  cbv zeta. rewrite displayLocations_run.
  by destruct (Unmarshal_locations (Some body)).
Qed.

Lemma fetchLocationDetails_run (w : env) (url : string) (cfg : config) :
  usable (Cache cfg) ->
  fetchLocationDetails w url cfg =
  match lookup_entry url (Cache cfg) with
  | Some e => (emit (Println [Str "Using cached data"]) ;; displayPokemon (val e)) cfg
  | None =>
      match env_response w with
      | Get_fails err =>
          (Done (Some err), cfg, [Println [Str "Fetching new data"]; http_Get url])
      | Get_ok (inl err) =>
          (Done (Some err), cfg,
           [Println [Str "Fetching new data"]; http_Get url; ioutil_ReadAll; Body_Close])
      | Get_ok (inr body) =>
          let added :=
            set_Cache (snd (Add (env_now w) url (Some body) (Cache cfg))) cfg in
          match displayPokemon (Some body) added with
          | (r, cfg', t) =>
              (r, cfg',
               [Println [Str "Fetching new data"]; http_Get url; ioutil_ReadAll]
                 ++ t ++ [Body_Close])
          end
      end
  end.
Proof.
  intros Hc. unfold Main.fetchLocationDetails.
  rewrite (cache_aside_run
             (fun data => emit (Println [Str "Using cached data"]) ;; displayPokemon data)
             displayPokemon) by done.
  destruct (lookup_entry url (Cache cfg)); [done|].
  destruct (env_response w) as [err|[err|body]]; [done..|].
  cbv zeta. rewrite displayPokemon_run.
  by destruct (Unmarshal_encounters (Some body)).
Qed.

Lemma catchPokemon_run (w : env) (url : string) (cfg : config) :
  usable (Cache cfg) ->
  catchPokemon w url cfg =
  match lookup_entry url (Cache cfg) with
  | Some e => attemptCatch w (val e) cfg
  | None =>
      match env_response w with
      | Get_fails err =>
          (Done (Some err), cfg, [Println [Str "Fetching new data"]; http_Get url])
      | Get_ok (inl err) =>
          (Done (Some err), cfg,
           [Println [Str "Fetching new data"]; http_Get url; ioutil_ReadAll; Body_Close])
      | Get_ok (inr body) =>
          let added :=
            set_Cache (snd (Add (env_now w) url (Some body) (Cache cfg))) cfg in
          match attemptCatch w (Some body) added with
          | (r, cfg', t) =>
              (r, cfg',
               [Println [Str "Fetching new data"]; http_Get url; ioutil_ReadAll]
                 ++ t ++ [Body_Close])
          end
      end
  end.
Proof.
  intros Hc. unfold Main.catchPokemon.
  rewrite (cache_aside_run (attemptCatch w) (attemptCatch w)) by done.
  destruct (lookup_entry url (Cache cfg)); [done|].
  destruct (env_response w) as [err|[err|body]]; [done..|].
  cbv zeta. rewrite attemptCatch_run.
  destruct (Unmarshal_Pokemon (Some body)); [done|].
  destruct (env_Intn w <? 50); [done|].
  by destruct (Caught _).
Qed.

(** What the three functions that use a payload leave alone: the cache, and
    the network. *)
Lemma filter_network_fmap {B} (f : B -> event) (l : list B) :
  (forall x, on_network (f x) = false) ->
  List.filter on_network (f <$> l) = [].
Proof.
  intros Hf. induction l as [|x l IH]; [done|]. cbn. by rewrite Hf.
Qed.

Lemma displayLocations_quiet (data : bytes) (cfg : config) r cfg' t :
  displayLocations data cfg = (r, cfg', t) ->
  Cache cfg' = Cache cfg /\ List.filter on_network t = [].
Proof.
  rewrite displayLocations_run.
  destruct (Unmarshal_locations data); intros [= <- <- <-]; [done|].
  split; [done|]. by apply filter_network_fmap.
Qed.

Lemma displayPokemon_quiet (data : bytes) (cfg : config) r cfg' t :
  displayPokemon data cfg = (r, cfg', t) ->
  Cache cfg' = Cache cfg /\ List.filter on_network t = [].
Proof.
  rewrite displayPokemon_run.
  destruct (Unmarshal_encounters data); intros [= <- <- <-]; [done|].
  split; [done|]. cbn. by apply filter_network_fmap.
Qed.

Lemma attemptCatch_quiet (w : env) (data : bytes) (cfg : config) r cfg' t :
  attemptCatch w data cfg = (r, cfg', t) ->
  Cache cfg' = Cache cfg /\ List.filter on_network t = [].
Proof.
  rewrite attemptCatch_run.
  destruct (Unmarshal_Pokemon data); [by intros [= <- <- <-]|].
  destruct (env_Intn w <? 50); [by intros [= <- <- <-]|].
  destruct (Caught cfg); by intros [= <- <- <-].
Qed.

(** X11 (a hit spares the network): when the cache holds an entry under the
    URL, each of the three fetching functions hands the cached payload to
    the function that uses it, makes no request and leaves the cache as it
    was. *)
Theorem cached_fetch_skips_network (w : env) (url : string) (cfg : config)
    (e : cacheEntry) :
  usable (Cache cfg) ->
  lookup_entry url (Cache cfg) = Some e ->
  fetchLocations w url cfg =
    (emit (Println [Str "Using cached data"]) ;; displayLocations (val e)) cfg /\
  fetchLocationDetails w url cfg =
    (emit (Println [Str "Using cached data"]) ;; displayPokemon (val e)) cfg /\
  catchPokemon w url cfg = attemptCatch w (val e) cfg /\
  forall r cfg' t,
    fetchLocations w url cfg = (r, cfg', t) \/
    fetchLocationDetails w url cfg = (r, cfg', t) \/
    catchPokemon w url cfg = (r, cfg', t) ->
    Cache cfg' = Cache cfg /\ List.filter on_network t = [].
Proof.
  intros Hc He.
  rewrite fetchLocations_run, fetchLocationDetails_run, catchPokemon_run by done.
  rewrite He. split; [done|]. split; [done|]. split; [done|].
  intros r cfg' t [Hrun|[Hrun|Hrun]].
  - rewrite bind_emit in Hrun.
    destruct (displayLocations (val e) cfg) as [[r0 cfg0] t0] eqn:Hd.
    injection Hrun as <- <- <-. by apply displayLocations_quiet in Hd.
  - rewrite bind_emit in Hrun.
    destruct (displayPokemon (val e) cfg) as [[r0 cfg0] t0] eqn:Hd.
    injection Hrun as <- <- <-. by apply displayPokemon_quiet in Hd.
  - by apply attemptCatch_quiet in Hrun.
Qed.

(** X12 (a failed fetch is not cached): on a miss, when [http.Get] fails or
    the body cannot be read, each of the three fetching functions returns
    that error and leaves the whole configuration, cache included, as it was;
    a body that was handed out is closed. *)
Theorem failed_fetch_caches_nothing (w : env) (url : string) (cfg : config)
    (err : error) :
  usable (Cache cfg) ->
  lookup_entry url (Cache cfg) = None ->
  (env_response w = Get_fails err ->
   let failed :=
     (Done (Some err), cfg, [Println [Str "Fetching new data"]; http_Get url]) in
   fetchLocations w url cfg = failed /\
   fetchLocationDetails w url cfg = failed /\
   catchPokemon w url cfg = failed) /\
  (env_response w = Get_ok (inl err) ->
   let failed :=
     (Done (Some err), cfg,
      [Println [Str "Fetching new data"]; http_Get url; ioutil_ReadAll; Body_Close]) in
   fetchLocations w url cfg = failed /\
   fetchLocationDetails w url cfg = failed /\
   catchPokemon w url cfg = failed).
Proof.
  intros Hc Hmiss.
  rewrite fetchLocations_run, fetchLocationDetails_run, catchPokemon_run by done.
  rewrite Hmiss. split; intros ->; done.
Qed.

Lemma added_cache (w : env) (url : string) (body : list byte) (cfg : config) :
  usable (Cache cfg) ->
  let added := set_Cache (snd (Add (env_now w) url (Some body) (Cache cfg))) cfg in
  usable (Cache added) /\
  interval (Cache added) = interval (Cache cfg) /\
  lookup_entry url (Cache added)
    = Some {| createdAt := env_now w; val := Some body |} /\
  (forall k, k <> url -> lookup_entry k (Cache added) = lookup_entry k (Cache cfg)) /\
  Next added = Next cfg /\ Previous added = Previous cfg /\
  Current added = Current cfg /\ Caught added = Caught cfg.
Proof.
  intros Hc added.
  destruct (on_Cache_Add (env_now w) url (Some body) cfg Hc)
    as (c' & HAdd & Hc' & Hi & Hl & Hother).
  unfold on_Cache in HAdd.
  subst added.
  destruct (Add (env_now w) url (Some body) (Cache cfg)) as [[[]|msg|] c''];
    try discriminate HAdd.
  injection HAdd as ->. by cbn.
Qed.

(** X13 (what was fetched is cached): on a miss answered with a body, each of
    the three fetching functions stores that body under the URL, stamped
    with the clock reading of the call, before using it and whether or not
    it decodes; entries under other keys stay, and its traffic is one
    request, one read and one close, in this order. *)
Theorem fetched_body_is_cached (w : env) (url : string) (cfg : config)
    (body : list byte) :
  usable (Cache cfg) ->
  lookup_entry url (Cache cfg) = None ->
  env_response w = Get_ok (inr body) ->
  forall r cfg' t,
    fetchLocations w url cfg = (r, cfg', t) \/
    fetchLocationDetails w url cfg = (r, cfg', t) \/
    catchPokemon w url cfg = (r, cfg', t) ->
    lookup_entry url (Cache cfg')
      = Some {| createdAt := env_now w; val := Some body |} /\
    (forall k, k <> url -> lookup_entry k (Cache cfg') = lookup_entry k (Cache cfg)) /\
    List.filter on_network t = [http_Get url; ioutil_ReadAll; Body_Close].
Proof.
  intros Hc Hmiss Hresp r cfg' t.
  rewrite fetchLocations_run, fetchLocationDetails_run, catchPokemon_run by done.
  rewrite Hmiss, Hresp. cbv zeta.
  destruct (added_cache w url body cfg Hc) as (_ & _ & Hl & Hother & _).
  set (added := set_Cache _ cfg) in *.
  assert (Hgo : forall (use : run (option error)),
    (forall r0 cfg0 t0, use added = (r0, cfg0, t0) ->
       Cache cfg0 = Cache added /\ List.filter on_network t0 = []) ->
    (let '(r0, cfg0, t0) := use added in
     (r0, cfg0,
      [Println [Str "Fetching new data"]; http_Get url; ioutil_ReadAll]
        ++ t0 ++ [Body_Close])) = (r, cfg', t) ->
    lookup_entry url (Cache cfg')
      = Some {| createdAt := env_now w; val := Some body |} /\
    (forall k, k <> url -> lookup_entry k (Cache cfg') = lookup_entry k (Cache cfg)) /\
    List.filter on_network t = [http_Get url; ioutil_ReadAll; Body_Close]).
  { intros use Hquiet Hrun.
    destruct (use added) as [[r0 cfg0] t0] eqn:Huse.
    destruct (Hquiet _ _ _ eq_refl) as [Hcache Hnet].
    injection Hrun as <- <- <-. rewrite Hcache.
    split; [done|]. split; [done|].
    cbn. by rewrite List.filter_app, Hnet. }
  intros [Hrun|[Hrun|Hrun]].
  - apply (Hgo (displayLocations (Some body))); [|done].
    intros ???. apply displayLocations_quiet.
  - apply (Hgo (displayPokemon (Some body))); [|done].
    intros ???. apply displayPokemon_quiet.
  - apply (Hgo (attemptCatch w (Some body))); [|done].
    intros ???. apply attemptCatch_quiet.
Qed.

(** X14 (a repeated request is served from the cache): after
    [fetchLocations] or [fetchLocationDetails] has fetched a body for a URL,
    calling it again on the same URL, whatever the network would answer now,
    makes no request, gives the same result and leaves the configuration as
    the first call left it. *)
Theorem repeated_fetch_is_served_from_cache (w1 w2 : env) (url : string)
    (cfg : config) (body : list byte) :
  usable (Cache cfg) ->
  lookup_entry url (Cache cfg) = None ->
  env_response w1 = Get_ok (inr body) ->
  (forall r1 cfg1 t1,
     fetchLocations w1 url cfg = (r1, cfg1, t1) ->
     exists t2,
       fetchLocations w2 url cfg1 = (r1, cfg1, t2) /\
       List.filter on_network t2 = []) /\
  (forall r1 cfg1 t1,
     fetchLocationDetails w1 url cfg = (r1, cfg1, t1) ->
     exists t2,
       fetchLocationDetails w2 url cfg1 = (r1, cfg1, t2) /\
       List.filter on_network t2 = []).
Proof.
  intros Hc Hmiss Hresp.
  destruct (added_cache w1 url body cfg Hc) as (Hc1 & _ & Hl & _).
  split; intros r1 cfg1 t1.
  - rewrite fetchLocations_run by done. rewrite Hmiss, Hresp. cbv zeta.
    set (added := set_Cache _ cfg) in *.
    rewrite displayLocations_run.
    destruct (Unmarshal_locations (Some body)) as [err|result] eqn:Hdec;
      intros [= <- <- <-].
    + eexists. rewrite fetchLocations_run by done. rewrite Hl. cbn [val].
      rewrite bind_emit, displayLocations_run, Hdec. split; [reflexivity|done].
    + eexists. rewrite fetchLocations_run by done.
      change (lookup_entry url (Cache _)) with (lookup_entry url (Cache added)).
      rewrite Hl. cbn [val].
      rewrite bind_emit, displayLocations_run, Hdec. split; [reflexivity|].
      cbn. by apply filter_network_fmap.
  - rewrite fetchLocationDetails_run by done. rewrite Hmiss, Hresp. cbv zeta.
    set (added := set_Cache _ cfg) in *.
    rewrite displayPokemon_run.
    destruct (Unmarshal_encounters (Some body)) as [err|encounters] eqn:Hdec;
      intros [= <- <- <-].
    + eexists. rewrite fetchLocationDetails_run by done. rewrite Hl. cbn [val].
      rewrite bind_emit, displayPokemon_run, Hdec. split; [reflexivity|done].
    + eexists. rewrite fetchLocationDetails_run by done. rewrite Hl. cbn [val].
      rewrite bind_emit, displayPokemon_run, Hdec. split; [reflexivity|].
      cbn. by apply filter_network_fmap.
Qed.

(** X15 (a page replaces the one before): when the bytes decode,
    [displayLocations] sets [Next] and [Previous] to the links of the page,
    replaces [Current] by the names of the page, in their order and without
    keeping any of the old ones, and prints one line per name; when they do
    not decode it returns the error, prints nothing and changes nothing. *)
Theorem displayLocations_replaces_page (data : bytes) (cfg : config) :
  match Unmarshal_locations data with
  | inl err => displayLocations data cfg = (Done (Some err), cfg, [])
  | inr page =>
      exists cfg',
        displayLocations data cfg =
          (Done None, cfg', (fun location => Println [Str location]) <$> Results page) /\
        Next cfg' = result_Next page /\
        Previous cfg' = result_Previous page /\
        Current cfg' = Results page /\
        Cache cfg' = Cache cfg /\
        Caught cfg' = Caught cfg
  end.
Proof.
  rewrite displayLocations_run.
  destruct (Unmarshal_locations data) as [err|page]; [done|].
  eexists. split; [reflexivity|]. done.
Qed.

(** X16 (catch, then inspect): [attemptCatch] leaves [Caught] alone when the
    Pokemon escapes (a draw below 50); otherwise it files the decoded
    Pokemon under its name, and [commandInspect] on that name then prints the
    details of this Pokemon. *)
Theorem caught_pokemon_can_be_inspected (w w' : env) (data : bytes) (cfg : config)
    (g : gmap string Pokemon) (pokemon : Pokemon) (rest : list string) :
  Caught cfg = Some g ->
  Unmarshal_Pokemon data = inr pokemon ->
  (env_Intn w < 50 ->
   exists t, attemptCatch w data cfg = (Done None, cfg, t)) /\
  (50 <= env_Intn w ->
   exists cfg' t,
     attemptCatch w data cfg = (Done None, cfg', t) /\
     Caught cfg' = Some (<[Name pokemon := pokemon]> g) /\
     Cache cfg' = Cache cfg /\
     commandInspect w' (Name pokemon :: rest) cfg'
       = (printPokemonDetails pokemon ;; ret None) cfg').
Proof.
  intros Hg Hdec. rewrite attemptCatch_run, Hdec. split; intros Hchance.
  - destruct (Z.ltb_spec (env_Intn w) 50); [|lia]. by eexists.
  - destruct (Z.ltb_spec (env_Intn w) 50); [lia|]. rewrite Hg.
    eexists _, _. split; [reflexivity|]. split; [done|]. split; [done|].
    unfold commandInspect, index_Caught. rewrite bind_read. cbn [Caught set_Caught].
    by rewrite lookup_insert_eq.
Qed.

(** X17 (the Pokedex lists every catch once): [commandPokedex] prints its
    heading and then one line per name in [Caught], each name once, and
    changes nothing. *)
Theorem commandPokedex_lists_each_name_once (w : env) (args : list string)
    (cfg : config) (g : gmap string Pokemon) :
  Caught cfg = Some g ->
  exists names,
    commandPokedex w args cfg =
      (Done None, cfg,
       Println [Str "Your Pokedex:"]
         :: ((fun name => Printf (" - %s" +:+ nl) [Str name]) <$> names)) /\
    NoDup names /\
    forall name, name ∈ names <-> is_Some (g !! name).
Proof.
  intros Hg. exists (Caught_names cfg). split; [|split].
  - unfold commandPokedex. rewrite bind_emit, bind_read. unfold bind.
    rewrite for_range_emit. cbn. by rewrite app_nil_r.
  - unfold Caught_names. rewrite Hg. apply NoDup_fst_map_to_list.
  - intros name. unfold Caught_names. rewrite Hg, list_elem_of_fmap. split.
    + intros ([k p] & -> & Hin). apply elem_of_map_to_list in Hin. by exists p.
    + intros [p Hp]. exists (name, p). split; [done|]. by apply elem_of_map_to_list.
Qed.

(** Ending well, command by command. *)
Lemma carries_on_same {A} (cfg cfg0 : config) (x : ending A * config * list event) :
  Cache cfg0 = Cache cfg -> Caught cfg0 = Caught cfg ->
  carries_on cfg0 x -> carries_on cfg x.
Proof.
  destruct x as [[r cfg'] t]. unfold carries_on, caught.
  by intros -> ->.
Qed.

Lemma carries_on_Done {A} (cfg cfg' : config) (a : A) (t : list event) :
  ready cfg ->
  Cache cfg' = Cache cfg -> Caught cfg' = Caught cfg ->
  carries_on cfg (Done a, cfg', t).
Proof.
  intros [Hc Hg] HC HG. unfold carries_on, ready, caught. rewrite HC, HG.
  split; [by exists a|]. done.
Qed.

Lemma displayLocations_carries_on (data : bytes) (cfg : config) :
  ready cfg -> carries_on cfg (displayLocations data cfg).
Proof.
  intros Hr. rewrite displayLocations_run.
  destruct (Unmarshal_locations data); by apply carries_on_Done.
Qed.

Lemma displayPokemon_carries_on (data : bytes) (cfg : config) :
  ready cfg -> carries_on cfg (displayPokemon data cfg).
Proof.
  intros Hr. rewrite displayPokemon_run.
  destruct (Unmarshal_encounters data); by apply carries_on_Done.
Qed.

Lemma attemptCatch_carries_on (w : env) (data : bytes) (cfg : config) :
  ready cfg -> carries_on cfg (attemptCatch w data cfg).
Proof.
  intros Hr. rewrite attemptCatch_run.
  destruct (Unmarshal_Pokemon data) as [err|pokemon]; [by apply carries_on_Done|].
  destruct (env_Intn w <? 50); [by apply carries_on_Done|].
  destruct Hr as [Hc Hg]. destruct (Caught cfg) as [g|] eqn:HG; [|done].
  unfold carries_on, ready, caught. cbn. rewrite HG.
  split; [by eexists|]. split; [done|]. split; [done|].
  intros name [p Hp].
  destruct (decide (Name pokemon = name)) as [<-|Hne].
  - rewrite lookup_insert_eq. by eexists.
  - rewrite lookup_insert_ne by done. by eexists.
Qed.

Lemma carries_on_trace {A} (cfg : config) (r : ending A) (cfg' : config)
    (t t' : list event) :
  carries_on cfg (r, cfg', t) -> carries_on cfg (r, cfg', t').
Proof. done. Qed.

Lemma carries_on_added {A} (w : env) (url : string) (body : list byte)
    (cfg : config) (x : ending A * config * list event) :
  ready cfg ->
  carries_on (set_Cache (snd (Add (env_now w) url (Some body) (Cache cfg))) cfg) x ->
  carries_on cfg x.
Proof.
  intros [Hc Hg].
  destruct (added_cache w url body cfg Hc) as (_ & Hi & _ & _ & _ & _ & _ & HG).
  destruct x as [[r cfg'] t]. unfold carries_on, caught.
  cbv zeta in Hi, HG. rewrite Hi, HG. done.
Qed.

Lemma ready_added (w : env) (url : string) (body : list byte) (cfg : config) :
  ready cfg ->
  ready (set_Cache (snd (Add (env_now w) url (Some body) (Cache cfg))) cfg).
Proof.
  intros [Hc Hg].
  destruct (added_cache w url body cfg Hc) as (Hc' & _ & _ & _ & _ & _ & _ & HG).
  split; [done|]. cbv zeta in HG. by rewrite HG.
Qed.

Lemma fetchLocations_carries_on (w : env) (url : string) (cfg : config) :
  ready cfg -> carries_on cfg (fetchLocations w url cfg).
Proof.
  intros Hr. rewrite fetchLocations_run by apply Hr.
  destruct (lookup_entry url (Cache cfg)) as [e|].
  - rewrite bind_emit.
    pose proof (displayLocations_carries_on (val e) cfg Hr) as Hd.
    by destruct (displayLocations (val e) cfg) as [[r cfg'] t].
  - destruct (env_response w) as [err|[err|body]]; [by apply carries_on_Done..|].
    cbv zeta. apply (carries_on_added w url body); [done|].
    pose proof (displayLocations_carries_on (Some body) _ (ready_added w url body cfg Hr)) as Hd.
    by destruct (displayLocations (Some body) _) as [[r cfg'] t].
Qed.

Lemma fetchLocationDetails_carries_on (w : env) (url : string) (cfg : config) :
  ready cfg -> carries_on cfg (fetchLocationDetails w url cfg).
Proof.
  intros Hr. rewrite fetchLocationDetails_run by apply Hr.
  destruct (lookup_entry url (Cache cfg)) as [e|].
  - rewrite bind_emit.
    pose proof (displayPokemon_carries_on (val e) cfg Hr) as Hd.
    by destruct (displayPokemon (val e) cfg) as [[r cfg'] t].
  - destruct (env_response w) as [err|[err|body]]; [by apply carries_on_Done..|].
    cbv zeta. apply (carries_on_added w url body); [done|].
    pose proof (displayPokemon_carries_on (Some body) _ (ready_added w url body cfg Hr)) as Hd.
    by destruct (displayPokemon (Some body) _) as [[r cfg'] t].
Qed.

Lemma catchPokemon_carries_on (w : env) (url : string) (cfg : config) :
  ready cfg -> carries_on cfg (catchPokemon w url cfg).
Proof.
  intros Hr. rewrite catchPokemon_run by apply Hr.
  destruct (lookup_entry url (Cache cfg)) as [e|].
  - by apply attemptCatch_carries_on.
  - destruct (env_response w) as [err|[err|body]]; [by apply carries_on_Done..|].
    cbv zeta. apply (carries_on_added w url body); [done|].
    pose proof (attemptCatch_carries_on w (Some body) _ (ready_added w url body cfg Hr)) as Hd.
    by destruct (attemptCatch w (Some body) _) as [[r cfg'] t].
Qed.

Lemma commandMap_run (w : env) (args : list string) (cfg : config) :
  commandMap Unmarshal_locations w args cfg =
    if String.eqb (Next cfg) ""
    then fetchLocations w "https://pokeapi.co/api/v2/location-area/"
           (set_Next "https://pokeapi.co/api/v2/location-area/" cfg)
    else fetchLocations w (Next cfg) cfg.
Proof.
  unfold commandMap. rewrite bind_read.
  destruct (String.eqb (Next cfg) "").
  - by rewrite bind_modify, bind_read.
  - by rewrite bind_ret, bind_read.
Qed.

Lemma commandMapB_run (w : env) (args : list string) (cfg : config) :
  commandMapB Unmarshal_locations w args cfg =
    if String.eqb (Previous cfg) ""
    then (Done None, cfg, [Println [Str "No previous locations to display."]])
    else fetchLocations w (Previous cfg) cfg.
Proof.
  unfold commandMapB. rewrite bind_read.
  by destruct (String.eqb (Previous cfg) "").
Qed.

Lemma printPokemonDetails_run (pokemon : Pokemon) (cfg : config) :
  exists t, printPokemonDetails pokemon cfg = (Done tt, cfg, t).
Proof.
  unfold printPokemonDetails. rewrite !bind_emit. unfold bind at 1.
  rewrite for_range_emit. rewrite bind_emit, for_range_emit. by eexists.
Qed.

Lemma commandInspect_carries_on (w : env) (args : list string) (cfg : config) :
  ready cfg -> carries_on cfg (commandInspect w args cfg).
Proof.
  intros Hr. unfold commandInspect. destruct args as [|pokemonName rest].
  { by apply carries_on_Done. }
  unfold index_Caught. rewrite bind_read.
  destruct (match Caught cfg with Some g => g !! pokemonName | None => None end)
    as [pokemon|].
  - unfold bind. destruct (printPokemonDetails_run pokemon cfg) as [t ->].
    by apply carries_on_Done.
  - by apply carries_on_Done.
Qed.

Lemma commandPokedex_carries_on (w : env) (args : list string) (cfg : config) :
  ready cfg -> carries_on cfg (commandPokedex w args cfg).
Proof.
  intros Hr. unfold commandPokedex. rewrite bind_emit, bind_read. unfold bind.
  rewrite for_range_emit. by apply carries_on_Done.
Qed.

Lemma callback_carries_on (cmdName : string) (cmd : cliCommand) (w : env)
    (args : list string) (cfg : config) :
  commands Unmarshal_locations Unmarshal_encounters Unmarshal_Pokemon !! cmdName
    = Some cmd ->
  ready cfg ->
  carries_on cfg (callback cmd w args cfg) \/
  (cmdName = "exit" /\
   callback cmd w args cfg = (Exited 0, cfg, [Println [Str "Exiting Pokedex..."]])).
Proof.
  intros Hcmd Hr. unfold commands in Hcmd.
  apply elem_of_list_to_map_2 in Hcmd.
  repeat (apply elem_of_cons in Hcmd as [[= -> ->]|Hcmd]); cbn [callback].
  - left. by apply carries_on_Done.
  - by right.
  - left. rewrite commandMap_run.
    destruct (String.eqb (Next cfg) ""); [|by apply fetchLocations_carries_on].
    apply (carries_on_same _ (set_Next "https://pokeapi.co/api/v2/location-area/" cfg));
      [done..|].
    by apply fetchLocations_carries_on.
  - left. rewrite commandMapB_run.
    destruct (String.eqb (Previous cfg) "");
      [by apply carries_on_Done | by apply fetchLocations_carries_on].
  - left. unfold commandExplore. destruct args;
      [by apply carries_on_Done | by apply fetchLocationDetails_carries_on].
  - left. unfold commandCatch. destruct args;
      [by apply carries_on_Done | by apply catchPokemon_carries_on].
  - left. by apply commandInspect_carries_on.
  - left. by apply commandPokedex_carries_on.
  - by apply not_elem_of_nil in Hcmd.
Qed.

(** X18 (no command panics): from a configuration whose cache is usable and
    whose [Caught] map is allocated, as [main] builds it, one turn of the
    loop of [main] on any input either ends with the configuration still
    such, the interval of the cache unchanged and every Pokemon caught
    before still caught, or it is the command [exit] leaving through
    [os.Exit(0)]; no command panics or blocks, whatever the network
    answers and whatever the bytes decode to. *)
Theorem main_turn_carries_on (w : env) (input : string) (parts : list string)
    (cfg : config) :
  ready cfg ->
  carries_on cfg
    (main_turn Unmarshal_locations Unmarshal_encounters Unmarshal_Pokemon
       w input parts cfg) \/
  (head parts = Some "exit" /\
   main_turn Unmarshal_locations Unmarshal_encounters Unmarshal_Pokemon
     w input parts cfg =
     (Exited 0, cfg, [Print [Str "Pokedex > "]; Println [Str "Exiting Pokedex..."]])).
Proof.
  intros Hr. unfold main_turn. rewrite bind_emit.
  destruct parts as [|cmdName args]; [left; by apply carries_on_Done|].
  destruct (commands _ _ _ !! cmdName) as [cmd|] eqn:Hcmd;
    [|left; by apply carries_on_Done].
  destruct (callback_carries_on cmdName cmd w args cfg Hcmd Hr) as [Hgo|[-> Hexit]].
  - left. unfold bind.
    destruct (callback cmd w args cfg) as [[r cfg'] t].
    destruct Hgo as ([a ->] & Hgo). cbn. split; [by eexists | done].
  - right. split; [done|]. unfold bind. by rewrite Hexit.
Qed.

(** X19 (the links of the page drive the paging): starting without a [Next]
    link, [commandMap] requests the first page; once a page is shown,
    [Next], [Previous] and [Current] are those of the page, [commandMapB]
    refuses to go back when the page has no previous link and otherwise
    fetches that link, and [commandMap] fetches the next link, or starts over
    from the first page when the page has none. *)
Theorem page_links_drive_paging (w w2 : env) (args args2 : list string)
    (cfg : config) (body : list byte) (page : locations) :
  let first := "https://pokeapi.co/api/v2/location-area/" in
  usable (Cache cfg) ->
  Next cfg = "" ->
  lookup_entry first (Cache cfg) = None ->
  env_response w = Get_ok (inr body) ->
  Unmarshal_locations (Some body) = inr page ->
  exists cfg' t,
    commandMap Unmarshal_locations w args cfg = (Done None, cfg', t) /\
    List.filter on_network t = [http_Get first; ioutil_ReadAll; Body_Close] /\
    Next cfg' = result_Next page /\
    Previous cfg' = result_Previous page /\
    Current cfg' = Results page /\
    (result_Previous page = "" ->
     commandMapB Unmarshal_locations w2 args2 cfg' =
       (Done None, cfg', [Println [Str "No previous locations to display."]])) /\
    (result_Previous page <> "" ->
     commandMapB Unmarshal_locations w2 args2 cfg' =
       fetchLocations w2 (result_Previous page) cfg') /\
    (result_Next page <> "" ->
     commandMap Unmarshal_locations w2 args2 cfg' =
       fetchLocations w2 (result_Next page) cfg') /\
    (result_Next page = "" ->
     commandMap Unmarshal_locations w2 args2 cfg' =
       fetchLocations w2 first (set_Next first cfg')).
Proof.
  intros first Hc Hnext Hmiss Hresp Hdec.
  rewrite commandMap_run, Hnext. cbn [String.eqb].
  rewrite fetchLocations_run by done.
  change (lookup_entry _ (Cache (set_Next _ cfg)))
    with (lookup_entry first (Cache cfg)).
  rewrite Hmiss, Hresp. cbv zeta.
  rewrite displayLocations_run, Hdec.
  eexists _, _. split; [reflexivity|]. split.
  { cbn. rewrite List.filter_app, filter_network_fmap by done. done. }
  split; [done|]. split; [done|]. split; [done|].
  rewrite commandMapB_run, commandMap_run. cbn [Next Previous].
  split; [|split; [|split]].
  - intros ->. done.
  - intros Hne. apply String.eqb_neq in Hne. by rewrite Hne.
  - intros Hne. apply String.eqb_neq in Hne. by rewrite Hne.
  - intros ->. done.
Qed.

(** X20 (a swept page is fetched again): once a sweep has found the entry
    under a URL expired, each of the three fetching functions goes to the
    network for that URL again. *)
Theorem swept_entry_is_fetched_again (w : env) (now : Time) (url : string)
    (cfg : config) (e : cacheEntry) :
  usable (Cache cfg) ->
  lookup_entry url (Cache cfg) = Some e ->
  expired now (interval (Cache cfg)) e = true ->
  let swept_cfg := set_Cache (snd (reap now (Cache cfg))) cfg in
  forall r cfg' t,
    fetchLocations w url swept_cfg = (r, cfg', t) \/
    fetchLocationDetails w url swept_cfg = (r, cfg', t) \/
    catchPokemon w url swept_cfg = (r, cfg', t) ->
    head (List.filter on_network t) = Some (http_Get url).
Proof.
  intros Hc He Hexp swept_cfg r cfg' t.
  destruct (reap_run now (Cache cfg) (proj1 Hc))
    as (c1 & Hrun & Hmu1 & _ & Hnil & Hl).
  assert (Hc1 : usable (Cache swept_cfg)).
  { subst swept_cfg. rewrite Hrun. cbn. split; [done|].
    intros Hnone. apply Hnil in Hnone. by destruct Hc. }
  assert (Hmiss : lookup_entry url (Cache swept_cfg) = None).
  { subst swept_cfg. rewrite Hrun. cbn. by rewrite Hl, He, Hexp. }
  rewrite fetchLocations_run, fetchLocationDetails_run, catchPokemon_run by done.
  rewrite Hmiss.
  destruct (env_response w) as [err|[err|body]].
  - by intros [[= <- <- <-]|[[= <- <- <-]|[= <- <- <-]]].
  - by intros [[= <- <- <-]|[[= <- <- <-]|[= <- <- <-]]].
  - cbv zeta.
    destruct (displayLocations _ _) as [[r1 cfg1] t1].
    destruct (displayPokemon _ _) as [[r2 cfg2] t2].
    destruct (attemptCatch _ _ _) as [[r3 cfg3] t3].
    by intros [[= <- <- <-]|[[= <- <- <-]|[= <- <- <-]]].
Qed.

End Facts.

Lemma cached_fetch_skips_network_witness :
  fetchLocations example_Unmarshal_locations (example_env (Get_fails "offline") 0)
    "u" example_cached =
    (emit (Println [Str "Using cached data"]) ;;
     displayLocations example_Unmarshal_locations (Some [x01])) example_cached.
Proof.
  apply (cached_fetch_skips_network example_Unmarshal_locations
           example_Unmarshal_encounters example_Unmarshal_Pokemon
           (example_env (Get_fails "offline") 0) "u" example_cached
           {| createdAt := 5; val := Some [x01] |}).
  - split; [reflexivity | discriminate].
  - reflexivity.
Defined.

Lemma failed_fetch_caches_nothing_witness :
  catchPokemon example_Unmarshal_Pokemon (example_env (Get_fails "offline") 0)
    "https://pokeapi.co/api/v2/pokemon/pikachu/" main_config =
    (Done (Some "offline"), main_config,
     [Println [Str "Fetching new data"];
      http_Get "https://pokeapi.co/api/v2/pokemon/pikachu/"]).
Proof.
  apply (failed_fetch_caches_nothing example_Unmarshal_locations
           example_Unmarshal_encounters example_Unmarshal_Pokemon
           (example_env (Get_fails "offline") 0)
           "https://pokeapi.co/api/v2/pokemon/pikachu/" main_config "offline").
  - split; [reflexivity | discriminate].
  - reflexivity.
  - reflexivity.
Defined.

Lemma fetched_body_is_cached_witness :
  let cfg' :=
    snd (fst (fetchLocationDetails example_Unmarshal_encounters
                (example_env (Get_ok (inr [x02])) 0) "v" example_cached)) in
  lookup_entry "v" (Cache cfg') = Some {| createdAt := 1000; val := Some [x02] |} /\
  lookup_entry "u" (Cache cfg') = Some {| createdAt := 5; val := Some [x01] |}.
Proof.
  destruct (fetchLocationDetails example_Unmarshal_encounters
              (example_env (Get_ok (inr [x02])) 0) "v" example_cached)
    as [[r cfg'] t] eqn:Hrun.
  destruct (fetched_body_is_cached example_Unmarshal_locations
              example_Unmarshal_encounters example_Unmarshal_Pokemon
              (example_env (Get_ok (inr [x02])) 0) "v" example_cached [x02])
    with (r := r) (cfg' := cfg') (t := t) as (Hl & Hother & _).
  - split; [reflexivity | discriminate].
  - reflexivity.
  - reflexivity.
  - right. left. exact Hrun.
  - split; [exact Hl|]. cbn [fst snd]. rewrite Hother; [reflexivity | discriminate].
Defined.

Lemma repeated_fetch_is_served_from_cache_witness :
  let first :=
    fetchLocations example_Unmarshal_locations
      (example_env (Get_ok (inr [x01])) 0) "w" main_config in
  exists t2,
    fetchLocations example_Unmarshal_locations
      (example_env (Get_fails "offline") 0) "w" (snd (fst first))
      = (fst (fst first), snd (fst first), t2) /\
    List.filter on_network t2 = [].
Proof.
  destruct (fetchLocations example_Unmarshal_locations
              (example_env (Get_ok (inr [x01])) 0) "w" main_config)
    as [[r1 cfg1] t1] eqn:Hrun.
  destruct (repeated_fetch_is_served_from_cache example_Unmarshal_locations
              example_Unmarshal_encounters
              (example_env (Get_ok (inr [x01])) 0)
              (example_env (Get_fails "offline") 0) "w" main_config [x01])
    as [Hagain _].
  - split; [reflexivity | discriminate].
  - reflexivity.
  - reflexivity.
  - exact (Hagain r1 cfg1 t1 Hrun).
Defined.

Lemma caught_pokemon_can_be_inspected_witness :
  exists cfg' t,
    attemptCatch example_Unmarshal_Pokemon (example_env (Get_fails "offline") 77)
      (Some [x03]) main_config = (Done None, cfg', t) /\
    Caught cfg' = Some (<["pikachu" := example_pokemon]> ∅) /\
    Cache cfg' = Cache main_config /\
    commandInspect (example_env (Get_fails "offline") 0) ["pikachu"] cfg'
      = (printPokemonDetails example_pokemon ;; ret None) cfg'.
Proof.
  apply (caught_pokemon_can_be_inspected example_Unmarshal_Pokemon
           (example_env (Get_fails "offline") 77)
           (example_env (Get_fails "offline") 0)
           (Some [x03]) main_config ∅ example_pokemon []).
  - reflexivity.
  - reflexivity.
  - cbn. lia.
Defined.

Lemma commandPokedex_lists_each_name_once_witness :
  exists names,
    commandPokedex (example_env (Get_fails "offline") 0) [] example_trainer =
      (Done None, example_trainer,
       Println [Str "Your Pokedex:"]
         :: ((fun name => Printf (" - %s" +:+ nl) [Str name]) <$> names)) /\
    NoDup names /\
    "pikachu" ∈ names /\ "eevee" ∈ names /\ "mew" ∉ names.
Proof.
  destruct (commandPokedex_lists_each_name_once
              (example_env (Get_fails "offline") 0) [] example_trainer
              (<["pikachu" := example_pokemon]> (<["eevee" := example_eevee]> ∅))
              eq_refl) as (names & Hrun & Hnodup & Hin).
  exists names. split; [exact Hrun|]. split; [exact Hnodup|].
  split; [|split].
  - apply Hin. rewrite lookup_insert_eq. by eexists.
  - apply Hin. rewrite lookup_insert_ne by discriminate.
    rewrite lookup_insert_eq. by eexists.
  - intros Hmew. apply Hin in Hmew.
    rewrite !lookup_insert_ne, lookup_empty in Hmew by discriminate.
    by destruct Hmew.
Defined.

Lemma main_turn_carries_on_witness :
  carries_on main_config
    (main_turn example_Unmarshal_locations example_Unmarshal_encounters
       example_Unmarshal_Pokemon (example_env (Get_ok (inr [x03])) 77)
       "catch pikachu" ["catch"; "pikachu"] main_config) \/
  (head ["catch"; "pikachu"] = Some "exit" /\
   main_turn example_Unmarshal_locations example_Unmarshal_encounters
     example_Unmarshal_Pokemon (example_env (Get_ok (inr [x03])) 77)
     "catch pikachu" ["catch"; "pikachu"] main_config =
     (Exited 0, main_config,
      [Print [Str "Pokedex > "]; Println [Str "Exiting Pokedex..."]])).
Proof.
  apply (main_turn_carries_on example_Unmarshal_locations
           example_Unmarshal_encounters example_Unmarshal_Pokemon
           (example_env (Get_ok (inr [x03])) 77)
           "catch pikachu" ["catch"; "pikachu"] main_config).
  split; [split; [reflexivity | discriminate] | discriminate].
Defined.

Lemma page_links_drive_paging_witness :
  exists cfg' t,
    commandMap example_Unmarshal_locations (example_env (Get_ok (inr [x01])) 0) []
      main_config = (Done None, cfg', t) /\
    Next cfg' = "https://pokeapi.co/api/v2/location-area/?offset=20&limit=20" /\
    Previous cfg' = "" /\
    Current cfg' = ["canalave-city-area"; "eterna-city-area"] /\
    commandMapB example_Unmarshal_locations (example_env (Get_fails "offline") 0) []
      cfg' = (Done None, cfg', [Println [Str "No previous locations to display."]]).
Proof.
  destruct (page_links_drive_paging example_Unmarshal_locations
              (example_env (Get_ok (inr [x01])) 0)
              (example_env (Get_fails "offline") 0) [] []
              main_config [x01] example_page)
    as (cfg' & t & Hrun & _ & HN & HP & HC & Hback & _).
  - split; [reflexivity | discriminate].
  - reflexivity.
  - reflexivity.
  - reflexivity.
  - reflexivity.
  - exists cfg', t. split; [exact Hrun|]. split; [exact HN|]. split; [exact HP|].
    split; [exact HC|]. apply Hback. reflexivity.
Defined.

Lemma swept_entry_is_fetched_again_witness :
  head (List.filter on_network
          (snd (fetchLocations example_Unmarshal_locations
                  (example_env (Get_fails "offline") 0) "u"
                  (set_Cache (snd (reap (5 + 5 * Minute + 1) (Cache example_cached)))
                     example_cached))))
    = Some (http_Get "u").
Proof.
  destruct (fetchLocations example_Unmarshal_locations
              (example_env (Get_fails "offline") 0) "u"
              (set_Cache (snd (reap (5 + 5 * Minute + 1) (Cache example_cached)))
                 example_cached)) as [[r cfg'] t] eqn:Hrun.
  apply (swept_entry_is_fetched_again example_Unmarshal_locations
           example_Unmarshal_encounters example_Unmarshal_Pokemon
           (example_env (Get_fails "offline") 0) (5 + 5 * Minute + 1) "u"
           example_cached {| createdAt := 5; val := Some [x01] |})
    with (r := r) (cfg' := cfg').
  - split; [reflexivity | discriminate].
  - reflexivity.
  - reflexivity.
  - left. exact Hrun.
Defined.

End MainProofs.
